(** * datasearcher: the file searcher of [main.py]

    A shallow embedding of the [FileSearcher] class: the classifier
    ([is_excluded], [is_binary_file], [is_searchable_file]), the line scanner
    and the JSON walk ([search_file], [search_json]), the per-file unit of work
    ([process_file]) and the worker pool of [search_directory].

    Python [str] values are embedded as [string]; a character stands for a
    code point below 256.  Python [int] is [Z], [len] and [enumerate] count in
    [nat].  [os.path] is [posixpath].  The file system and [re.search] are
    parameters of the searcher; the file system does not change during a
    run.  Python's recursion limit is not modelled.

    The worker pool is a step function on the submitted units, driven by
    the sequence of units the scheduler picks: a property of every
    interleaving is a property of every such sequence.  The first step of a
    unit takes it from the queue, in the order of submission, and stands for
    the classification and the scan, which touch no shared attribute; the
    units under way take their steps on the shared attributes in any
    order, so a unit submitted later can be the first at the lock. *)

From Stdlib Require Import ZArith String Ascii List Lia DecimalString
  DecimalNat.
From stdpp Require Import base option list gmap strings fin_maps sorting.

#[local] Set Warnings "-register-all,-clear-no-such-hyp".

(** ** Python [str] operations used by the program *)

Module Str.

(** [c.isspace()] on code points below 256: TAB..CR, FS..US, SPACE, NEL and
    NBSP. *)
Definition is_space (c : ascii) : bool :=
  let n := N_of_ascii c in
  ((9 <=? n) && (n <=? 13) || (28 <=? n) && (n <=? 32)
   || (n =? 133) || (n =? 160))%N.

(** [c.lower()] on code points below 256: A..Z and the Latin-1 capitals
    (all of 0xC0..0xDE but the multiplication sign 0xD7) move up by 32. *)
Definition lower_char (c : ascii) : ascii :=
  let n := N_of_ascii c in
  if ((65 <=? n) && (n <=? 90)
      || (192 <=? n) && (n <=? 222) && negb (n =? 215))%N
  then ascii_of_N (n + 32) else c.

(** [s.lower()] on a text of code points below 256, where it lowers
    character by character; beyond them [lower] looks at the neighbours of
    a character, and such text is not modelled. *)
Fixpoint lower (s : string) : string :=
  match s with
  | EmptyString => EmptyString
  | String c s' => String (lower_char c) (lower s')
  end.

(** [s.startswith(t)] *)
Fixpoint startswith (s t : string) {struct t} : bool :=
  match t, s with
  | EmptyString, _ => true
  | String _ _, EmptyString => false
  | String b t', String a s' => Ascii.eqb a b && startswith s' t'
  end.

(** [t in s]: [t] occurs in [s] as a contiguous substring. *)
Fixpoint contains (t s : string) : bool :=
  startswith s t ||
  match s with
  | EmptyString => false
  | String _ s' => contains t s'
  end.

(** [s.endswith(t)] *)
Fixpoint endswith (s t : string) : bool :=
  String.eqb s t ||
  match s with
  | EmptyString => false
  | String _ s' => endswith s' t
  end.

(** [s.rstrip()]: every trailing white-space character is removed. *)
Fixpoint rstrip (s : string) : string :=
  match s with
  | EmptyString => EmptyString
  | String c s' =>
      match rstrip s' with
      | EmptyString => if is_space c then EmptyString else String c EmptyString
      | r => String c r
      end
  end.

(** [s.rfind(c)] for a one-character [c]: the last index, or -1. *)
Fixpoint rfind_from (c : ascii) (s : string) (i last : Z) : Z :=
  match s with
  | EmptyString => last
  | String a s' => rfind_from c s' (i + 1)%Z (if Ascii.eqb a c then i else last)
  end.

Definition rfind (c : ascii) (s : string) : Z := rfind_from c s 0%Z (-1)%Z.

(** The slice [s[i:j]] for [0 <= i]. *)
Definition slice (s : string) (i j : Z) : string :=
  String.substring (Z.to_nat i) (Z.to_nat (j - i)) s.

Definition len (s : string) : Z := Z.of_nat (String.length s).

Fixpoint all_dots (s : string) : bool :=
  match s with
  | EmptyString => true
  | String c s' => Ascii.eqb c "." && all_dots s'
  end.

(** [os.path.splitext(p)] of [posixpath]: [genericpath._splitext] with
    separator "/" and no alternative separator.  The extension starts at
    the last dot, when that dot lies in the last path component and some
    character other than a dot precedes it there. *)
Definition splitext (p : string) : string * string :=
  let sepIndex := rfind "/" p in
  let dotIndex := rfind "." p in
  if (dotIndex >? sepIndex)%Z
     && negb (all_dots (slice p (sepIndex + 1) dotIndex))
  then (slice p 0 dotIndex, slice p dotIndex (len p))
  else (p, EmptyString).

(** [str(i)] of an [int], and of an index produced by [enumerate]. *)
Definition of_Z (z : Z) : string := NilZero.string_of_int (Z.to_int z).
Definition of_nat (n : nat) : string := NilZero.string_of_uint (Nat.to_uint n).

End Str.

(** ** Values produced by [json.load] *)

Module Json.

(** A [float] is carried by the text [str] gives for it; a [dict] is the
    sequence of its items in insertion order. *)
Inductive json : Type :=
| JNull
| JBool (b : bool)
| JInt (z : Z)
| JFloat (repr : string)
| JStr (s : string)
| JArr (items : list json)
| JObj (items : list (string * json)).

(** [str(v)] for the values that are neither [dict] nor [list]. *)
Definition py_str (v : json) : string :=
  match v with
  | JNull => "None"
  | JBool true => "True"
  | JBool false => "False"
  | JInt z => Str.of_Z z
  | JFloat repr => repr
  | JStr s => s
  | JArr _ | JObj _ => EmptyString
  end.

(** [isinstance(v, (dict, list))] *)
Definition is_container (v : json) : bool :=
  match v with JArr _ | JObj _ => true | _ => false end.


End Json.
Import Json.

(** ** The searcher *)

(** The attributes of a [FileSearcher] that are fixed by [__init__]; the
    attributes the workers update ([results], [files_processed],
    [matches_found], [lock]) are the [shared] record below. *)
Record FileSearcher : Type := {
  search_term : string;
  directory : string;
  exclude_patterns : list string;
  max_workers : Z;
  file_extensions : list string;
  case_sensitive : bool
}.

(** A match: the dict appended to [matches]; [json_path] is absent from the
    dicts of the line scan. *)
Record match_record : Type := {
  line_num : nat;
  line : string;
  file_path : string;
  json_path : option string
}.

Definition default_extensions : list string :=
  [".txt"; ".json"; ".sql"; ".py"; ".md"; ".csv"; ".log"; ".xml"; ".html";
   ".js"; ".css"].

(** [FileSearcher.__init__]; an absent optional argument is [None]. *)
Definition init (term dir : string) (exclude : option (list string))
    (workers : Z) (extensions : option (list string)) (cs : bool)
    : FileSearcher :=
  {| search_term := term;
     directory := dir;
     exclude_patterns :=
       match exclude with Some (p :: ps) => p :: ps | _ => [] end;
     max_workers := Z.max 1 workers;
     file_extensions :=
       match extensions with Some (e :: es) => e :: es | _ => default_extensions end;
     case_sensitive := cs |}.

(** The test written out five times in the source:
    [(case_sensitive and term in x) or
     (not case_sensitive and term.lower() in x.lower())]. *)
Definition term_in (self : FileSearcher) (x : string) : bool :=
  (case_sensitive self && Str.contains (search_term self) x)
  || (negb (case_sensitive self)
      && Str.contains (Str.lower (search_term self)) (Str.lower x)).

Definition json_match (fp current_path text : string) : match_record :=
  {| line_num := 0;
     line := current_path +:+ ": " +:+ text;
     file_path := fp;
     json_path := Some current_path |}.

(** The two [elif] branches under [isinstance(v, (dict, list))]: a [str] is
    tested with the configured rule and, when that fails, falls through to
    the last branch like every other value. *)
Definition search_value (self : FileSearcher) (fp current_path : string)
    (v : json) : list match_record :=
  match v with
  | JStr s =>
      if term_in self s then [json_match fp current_path s]
      else if Str.contains (search_term self) (py_str v)
           then [json_match fp current_path (py_str v)] else []
  | _ =>
      if Str.contains (search_term self) (py_str v)
      then [json_match fp current_path (py_str v)] else []
  end.

(** [search_json]: the loops over [data.items()] and [enumerate(data)] are the
    two inner fixpoints. *)
Fixpoint search_json (self : FileSearcher) (data : json) (fp path : string)
    {struct data} : list match_record :=
  match data with
  | JObj kvs =>
      (fix items (kvs : list (string * json)) : list match_record :=
         match kvs with
         | [] => []
         | (k, v) :: rest =>
             let current_path := path +:+ "." +:+ k in
             (if term_in self k then [json_match fp current_path k] else [])
             ++ (match v with
                 | JObj _ | JArr _ => search_json self v fp current_path
                 | _ => search_value self fp current_path v
                 end)
             ++ items rest
         end) kvs
  | JArr l =>
      (fix elems (i : nat) (l : list json) : list match_record :=
         match l with
         | [] => []
         | item :: rest =>
             let current_path := path +:+ "[" +:+ Str.of_nat i +:+ "]" in
             (match item with
              | JObj _ | JArr _ => search_json self item fp current_path
              | _ => search_value self fp current_path item
              end)
             ++ elems (S i) rest
         end) 0 l
  | _ => []
  end.

(** ** Exceptions, the file system and what a unit of work does to them *)

(** An exception, with the text [str(e)] gives for it. *)
Inductive exn : Type := Exn (msg : string).

Definition exn_str (e : exn) : string := let 'Exn msg := e in msg.

(** What iterating over a file opened in text mode yields: lines, until the
    end of the file or until a read raises. *)
Inductive text_stream : Type :=
| Eof
| Line (l : string) (rest : text_stream)
| Fault (e : exn).

(** What the second [open] with [json.load] comes to. *)
Inductive json_load : Type :=
| Loaded (v : json)
| JSONDecodeError
| LoadFault (e : exn).

(** A path of the file system, as the program observes it: the bytes a
    binary read gets, the lines a text read (utf-8, undecodable bytes
    dropped) gets, and the outcome of parsing it as JSON; each may raise
    instead. *)
Record file : Type := {
  content : exn + string;
  text : exn + text_stream;
  parsed : json_load
}.

(** What a unit of work does outside the searcher's own attributes. *)
Inductive event : Type :=
| OpenBinary (path : string)
| OpenText (path : string)
| Print (s : string).

(** Computations that leave a trace of events and may raise. *)
Definition io (A : Type) : Type := list event * (exn + A).

Definition ret {A} (a : A) : io A := ([], inr a).
Definition raise {A} (e : exn) : io A := ([], inl e).
Definition emit (ev : event) : io unit := ([ev], inr tt).
Definition bind {A B} (m : io A) (k : A → io B) : io B :=
  match m with
  | (t, inl e) => (t, inl e)
  | (t, inr a) => let '(t', r) := k a in (t ++ t', r)
  end.
Definition lift {A} (r : exn + A) : io A := ([], r).

Definition trace {A} (m : io A) : list event := fst m.
Definition outcome {A} (m : io A) : exn + A := snd m.

Declare Scope io_scope.
Delimit Scope io_scope with io.
Notation "x <- m ;; k" := (bind m (λ x, k))
  (at level 100, m at next level, right associativity) : io_scope.
Notation "m ;;; k" := (bind m (λ _, k))
  (at level 100, right associativity) : io_scope.

(** [colorama.Fore.RED] *)
Definition Fore_RED : string := String (ascii_of_nat 27) "[31m".

(** The line [search_file] prints in its [except] clause. *)
Definition error_line (path : string) (e : exn) : string :=
  Fore_RED +:+ "Error processing " +:+ path +:+ ": " +:+ exn_str e.

Definition NUL : string := String zero EmptyString.

(** The steps of a unit of work.  With [Start] a worker takes the unit from
    the queue and runs the classification and the scan of [process_file],
    which touch no attribute the workers share; the other steps are those on
    the shared attributes.  An assignment [x += n] is a read of [x] followed
    by a write of the sum; a switch to another worker may come between the
    two. *)
Inductive action : Type :=
| Start
| Acquire
| Release
| SetResult (path : string) (matches : list match_record)
| LoadMatches
| StoreMatches (n : nat)
| LoadFiles
| StoreFiles.

(** ** The attributes the workers share, and the pool *)

(** [results], [files_processed], [matches_found] and [lock]; the lock
    records the worker that holds it. *)
Record shared : Type := {
  results : gmap string (list match_record);
  files_processed : nat;
  matches_found : nat;
  lock : option nat
}.

Definition init_shared : shared :=
  {| results := ∅; files_processed := 0; matches_found := 0; lock := None |}.

(** One step of worker [i] on the shared attributes, with [r] the value it
    has read for the [+=] it is carrying out; [None] when the worker has to
    wait for the lock. *)
Definition exec (i : nat) (a : action) (r : nat) (sh : shared)
    : option (shared * nat) :=
  match a with
  | Start => Some (sh, r)
  | Acquire =>
      match lock sh with
      | None => Some ({| results := results sh;
                         files_processed := files_processed sh;
                         matches_found := matches_found sh;
                         lock := Some i |}, r)
      | Some _ => None
      end
  | Release =>
      Some ({| results := results sh;
               files_processed := files_processed sh;
               matches_found := matches_found sh;
               lock := None |}, r)
  | SetResult path matches =>
      Some ({| results := <[path := matches]> (results sh);
               files_processed := files_processed sh;
               matches_found := matches_found sh;
               lock := lock sh |}, r)
  | LoadMatches => Some (sh, matches_found sh)
  | StoreMatches n =>
      Some ({| results := results sh;
               files_processed := files_processed sh;
               matches_found := r + n;
               lock := lock sh |}, r)
  | LoadFiles => Some (sh, files_processed sh)
  | StoreFiles =>
      Some ({| results := results sh;
               files_processed := r + 1;
               matches_found := matches_found sh;
               lock := lock sh |}, r)
  end.

(** A submitted unit of work: its steps, how many of them it has taken, and
    the value it has read last. *)
Record thread : Type := { prog : list action; pc : nat; reg : nat }.

(** The executor: its number of workers, the submitted units in the order
    of submission, and the shared attributes. *)
Record pool : Type := { workers : Z; threads : list thread; mem : shared }.

(** A unit that has been taken from the queue and has steps left keeps a
    worker busy. *)
Definition in_flight (th : thread) : bool :=
  (0 <? pc th) && (pc th <? length (prog th)).

Definition busy (st : pool) : nat :=
  sum_list_with (λ th, if in_flight th then 1 else 0) (threads st).

(** A unit has been taken from the queue once it has taken its first
    step. *)
Definition begun (th : thread) : bool := 0 <? pc th.

(** A unit under way may go on, in any order with the other units under
    way.  A unit still in the queue is taken from it when every unit
    submitted before it has been taken and a worker is free: the queue of
    the executor is first in, first out. *)
Definition may_run (i : nat) (st : pool) (th : thread) : bool :=
  (0 <? pc th)
  || (forallb begun (take i (threads st))
      && (Z.of_nat (busy st) <? workers st)%Z).

(** The scheduler lets unit [i] take its next step; a unit that may not
    run, waits for the lock or has finished stays where it is. *)
Definition step (i : nat) (st : pool) : pool :=
  match threads st !! i with
  | None => st
  | Some th =>
      if may_run i st th then
        match prog th !! pc th with
        | None => st
        | Some a =>
            match exec i a (reg th) (mem st) with
            | None => st
            | Some (sh, r) =>
                {| workers := workers st;
                   threads :=
                     <[i := {| prog := prog th; pc := S (pc th); reg := r |}]>
                       (threads st);
                   mem := sh |}
            end
        end
      else st
  end.

(** An interleaving is the sequence of units the scheduler picks. *)
Definition run (sched : list nat) (st : pool) : pool :=
  foldl (λ st i, step i st) st sched.

Definition thread_done (th : thread) : bool := pc th =? length (prog th).

(** Every future has completed. *)
Definition finished (st : pool) : bool := forallb thread_done (threads st).

(** The interleaving that runs the units one after the other: no unit has
    more than ten steps. *)
Definition sequential (n : nat) : list nat :=
  flat_map (λ i, replicate 10 i) (seq 0 n).

Section Searcher.

(** [re.search(pattern, s)]: whether some part of [s] matches, or the
    [re.error] an ill-formed pattern raises. *)
Variable re_search : string → string → exn + bool.

(** The file system, fixed while the search runs. *)
Variable fs : string → file.

Variable self : FileSearcher.

(** [any(re.search(pattern, file_path) for pattern in ...)] stops at the
    first pattern that matches or raises. *)
Fixpoint any_search (patterns : list string) (path : string) : exn + bool :=
  match patterns with
  | [] => inr false
  | pattern :: rest =>
      match re_search pattern path with
      | inl e => inl e
      | inr true => inr true
      | inr false => any_search rest path
      end
  end.

Definition is_excluded (path : string) : exn + bool :=
  any_search (exclude_patterns self) path.

(** [f.read(1024)] gets the first 1024 bytes; any exception means
    binary. *)
Definition is_binary_file (path : string) : io bool :=
  (emit (OpenBinary path) ;;;
   match content (fs path) with
   | inl _ => ret true
   | inr bytes => ret (Str.contains NUL (String.substring 0 1024 bytes))
   end)%io.

Definition extension_ok (path : string) : bool :=
  let ext := Str.lower (Str.splitext path).2 in
  match file_extensions self with
  | [] => true
  | _ => bool_decide (ext ∈ file_extensions self)
  end.

Definition is_searchable_file (path : string) : io bool :=
  (excluded <- lift (is_excluded path) ;;
   if excluded : bool then ret false else
   binary <- is_binary_file path ;;
   if binary : bool then ret false else
   ret (extension_ok path))%io.

Definition line_match (path : string) (n : nat) (l : string) : match_record :=
  {| line_num := n; line := Str.rstrip l; file_path := path;
     json_path := None |}.

(** The [for line_num, line in enumerate(f, 1)] loop: the matches appended
    so far, and the exception that ended the loop, if any. *)
Fixpoint scan_lines (path : string) (f : text_stream) (n : nat)
    (matches : list match_record) : list match_record * option exn :=
  match f with
  | Eof => (matches, None)
  | Fault e => (matches, Some e)
  | Line l rest =>
      scan_lines path rest (S n)
        (if term_in self l then matches ++ [line_match path n l] else matches)
  end.

(** [search_file]: [matches] is bound before the [try], so the [except]
    clause returns what had been appended when the exception came. *)
Definition search_file (path : string) : io (list match_record) :=
  (emit (OpenText path) ;;;
   match text (fs path) with
   | inl e => emit (Print (error_line path e)) ;;; ret []
   | inr f =>
       match scan_lines path f 1 [] with
       | (matches, Some e) =>
           emit (Print (error_line path e)) ;;; ret matches
       | (matches, None) =>
           if Str.endswith (Str.lower path) ".json" then
             emit (OpenText path) ;;;
             match parsed (fs path) with
             | Loaded json_data =>
                 ret (matches ++ search_json self json_data path "$")
             | JSONDecodeError => ret matches
             | LoadFault e =>
                 emit (Print (error_line path e)) ;;; ret matches
             end
           else ret matches
       end
   end)%io.

(** The two [with self.lock:] blocks of [process_file]. *)
Definition merge_actions (path : string) (matches : list match_record)
    : list action :=
  (match matches with
   | [] => []
   | _ => [Acquire; SetResult path matches;
           LoadMatches; StoreMatches (length matches); Release]
   end)
  ++ [Acquire; LoadFiles; StoreFiles; Release].

(** [process_file]: the classification and the scan touch only the file
    system; what follows them is the sequence of steps on the shared
    attributes. *)
Definition process_file (path : string) : io (list action) :=
  (searchable <- is_searchable_file path ;;
   if searchable : bool then
     matches <- search_file path ;;
     ret (merge_actions path matches)
   else ret [])%io.

(** The steps of [process_file] on the shared attributes: an exception
    ends the unit before it touches them and stays in the future, which
    nobody asks for its result. *)
Definition task (path : string) : list action :=
  match outcome (process_file path) with
  | inr steps => steps
  | inl _ => []
  end.

(** The future of [executor.submit(self.process_file, path)]: a worker
    takes it from the queue, classifies and scans the file without the
    lock, and then takes the steps on the shared attributes. *)
Definition future (path : string) : list action := Start :: task path.

(** [effective_workers] of [search_directory] *)
Definition effective_workers (total_files : nat) : Z :=
  Z.max 1 (Z.min (max_workers self) (Z.of_nat total_files)).

(** The executor of [search_directory] after the [executor.submit] calls:
    [ThreadPoolExecutor(max_workers=effective_workers)] with one unit for
    each enumerated file. *)
Definition submit (all_files : list string) : pool :=
  {| workers := effective_workers (length all_files);
     threads :=
       map (λ path, {| prog := future path; pc := 0; reg := 0 |}) all_files;
     mem := init_shared |}.

(** [search_directory], for the list [all_files] the walk has built and the
    interleaving [sched] of the pool: the executor's [with] block ends once
    every unit has completed. *)
Definition search_directory (all_files : list string) (sched : list nat)
    : option shared :=
  match all_files with
  | [] => Some init_shared
  | _ =>
      let st := run sched (submit all_files) in
      if finished st then Some (mem st) else None
  end.

End Searcher.

Section Elems.

Variables (self : FileSearcher) (fp path : string).

(** The loop of [search_json] over [enumerate(data)], from index [i] on. *)
Fixpoint search_elems (i : nat) (l : list json) : list match_record :=
  match l with
  | [] => []
  | item :: rest =>
      let current_path := path +:+ "[" +:+ Str.of_nat i +:+ "]" in
      (match item with
       | JObj _ | JArr _ => search_json self item fp current_path
       | _ => search_value self fp current_path item
       end)
      ++ search_elems (S i) rest
  end.

End Elems.

(** The same searcher with the other case rule. *)
Definition with_case (cs : bool) (self : FileSearcher) : FileSearcher :=
  {| search_term := search_term self;
     directory := directory self;
     exclude_patterns := exclude_patterns self;
     max_workers := max_workers self;
     file_extensions := file_extensions self;
     case_sensitive := cs |}.

(** ** Text files and a small world for the examples *)

Definition LF : ascii := ascii_of_nat 10.
Definition CR : ascii := ascii_of_nat 13.
Definition TAB : ascii := ascii_of_nat 9.
Definition DQ : string := String (ascii_of_nat 34) EmptyString.

(** The lines a text-mode file object yields for a decoded text: a line
    ends at "\n", "\r" or "\r\n", each handed over as "\n" (universal
    newlines); [cur] is the line read so far. *)
Fixpoint readlines (cur s : string) : list string :=
  match s with
  | EmptyString => match cur with EmptyString => [] | _ => [cur] end
  | String c s' =>
      if Ascii.eqb c LF
      then (cur +:+ String LF EmptyString) :: readlines EmptyString s'
      else if Ascii.eqb c CR then
        match s' with
        | String c' s'' =>
            if Ascii.eqb c' LF
            then (cur +:+ String LF EmptyString) :: readlines EmptyString s''
            else (cur +:+ String LF EmptyString) :: readlines EmptyString s'
        | EmptyString => [cur +:+ String LF EmptyString]
        end
      else readlines (cur +:+ String c EmptyString) s'
  end.

Definition stream_of (lines : list string) : text_stream :=
  foldr Line Eof lines.

(** A readable file holding the text [t] (code points below 128, so that
    the bytes are the text), with [j] what [json.load] makes of it. *)
Definition text_file (t : string) (j : json_load) : file :=
  {| content := inr t; text := inr (stream_of (readlines EmptyString t));
     parsed := j |}.

Definition missing_file : file :=
  let e := Exn "[Errno 2] No such file or directory" in
  {| content := inl e; text := inl e; parsed := LoadFault e |}.

(** [re.search] on patterns without metacharacters: a substring test. *)
Definition literal_search (pattern s : string) : exn + bool :=
  inr (Str.contains pattern s).

Definition EIO : exn := Exn "[Errno 5] Input/output error".

Definition ex_world (path : string) : file :=
  if String.eqb path "notes.txt" then
    text_file ("alpha" +:+ String LF
                 ("findme " +:+ String TAB
                    (String LF ("omega" +:+ String LF EmptyString))))
              JSONDecodeError
  else if String.eqb path "broken.log" then
    {| content := inr "findme first";
       text := inr (Line ("findme first" +:+ String LF EmptyString)
                      (Fault EIO));
       parsed := LoadFault EIO |}
  else if String.eqb path "data.bin" then
    text_file "findme" JSONDecodeError
  else if String.eqb path "a.json" then
    text_file ("{" +:+ DQ +:+ "a" +:+ DQ +:+ ": {" +:+ DQ +:+ "b" +:+ DQ
               +:+ ": " +:+ DQ +:+ "findme" +:+ DQ +:+ "}}")
              (Loaded (JObj [("a", JObj [("b", JStr "findme")])]))
  else missing_file.

Definition ex_self : FileSearcher := init "findme" "." None 1000 None false.

(** ** Vocabulary of the properties *)

(** [is_searchable_file] returned [True]. *)
Definition searchable (re_search : string → string → exn + bool)
    (fs : string → file) (self : FileSearcher) (path : string) : bool :=
  match outcome (is_searchable_file re_search fs self path) with
  | inr true => true
  | _ => false
  end.

(** No file is opened for the content scan. *)
Definition never_scanned (t : list event) : Prop :=
  Forall (λ ev, match ev with OpenText _ => False | _ => True end) t.

(** A record of the structured pass under [path]: line number 0, the file's
    path, and a structural path that extends [path]. *)
Definition under (fp path : string) (r : match_record) : Prop :=
  ∃ q text, r = json_match fp (path +:+ q) text.

(** The lines a text read yields before it ends, and the exception it ends
    on, if any. *)
Fixpoint stream_lines (f : text_stream) : list string :=
  match f with
  | Eof | Fault _ => []
  | Line l rest => l :: stream_lines rest
  end.

Fixpoint stream_fault (f : text_stream) : option exn :=
  match f with
  | Eof => None
  | Fault e => Some e
  | Line _ rest => stream_fault rest
  end.

(** One record for each line that holds the term, numbered from [n]. *)
Definition line_records (self : FileSearcher) (path : string) (n : nat)
    (lines : list string) : list match_record :=
  concat (imap (λ i l,
    if term_in self l then [line_match path (n + i) l] else []) lines).

(** What the structured pass adds after a line scan that ended well. *)
Definition structured_pass (fs : string → file) (self : FileSearcher)
    (path : string) : list match_record :=
  if Str.endswith (Str.lower path) ".json" then
    match parsed (fs path) with
    | Loaded json_data => search_json self json_data path "$"
    | _ => []
    end
  else [].

(** The line without its final newline, and nothing else removed. *)
Fixpoint strip_newline (l : string) : string :=
  match l with
  | EmptyString => EmptyString
  | String c EmptyString =>
      if Ascii.eqb c LF then EmptyString else String c EmptyString
  | String c rest => String c (strip_newline rest)
  end.

(** Whether the last character of a text is white space. *)
Fixpoint last_is_space (s : string) : bool :=
  match s with
  | EmptyString => false
  | String c EmptyString => Str.is_space c
  | String _ rest => last_is_space rest
  end.

(** The matches [search_file] returns; it never raises. *)
Definition found (fs : string → file) (self : FileSearcher) (path : string)
    : list match_record :=
  match outcome (search_file fs self path) with
  | inr matches => matches
  | inl _ => []
  end.

(** The batch of a file: what its unit of work found, nothing for a file
    that is not searchable. *)
Definition batch (re_search : string → string → exn + bool)
    (fs : string → file) (self : FileSearcher) (path : string)
    : list match_record :=
  if searchable re_search fs self path then found fs self path else [].

(** The steps a unit has taken, and what they have done. *)
Definition done_of (th : thread) : list action := take (pc th) (prog th).

Definition counted (l : list action) : nat :=
  sum_list_with (λ a, match a with StoreFiles => 1 | _ => 0 end) l.

Definition added (l : list action) : nat :=
  sum_list_with (λ a, match a with StoreMatches n => n | _ => 0 end) l.

Definition wlen (l : list action) : nat :=
  sum_list_with (λ a, match a with SetResult _ ms => length ms | _ => 0 end) l.

Definition written (l : list action) : list (string * list match_record) :=
  omap (λ a, match a with SetResult p ms => Some (p, ms) | _ => None end) l.

(** Whether a unit that has taken the steps [l] is inside a [with
    self.lock:] block. *)
Definition holds (l : list action) : bool :=
  foldl (λ h a, match a with Acquire => true | Release => false | _ => h end)
        false l.

(** The number of matches in the batches of [results]. *)
Definition total_len (m : gmap string (list match_record)) : nat :=
  map_fold (λ _ ms n, length ms + n) 0 m.

(** What the pool proofs use of a unit's steps: after [Start] they are
    those of [merge_actions] for the file's batch, or none. *)
Inductive shape (q : string) (ms : list match_record) : list action → Prop :=
| shape_skip : ms = [] → shape q ms [Start]
| shape_count :
    ms = [] → shape q ms [Start; Acquire; LoadFiles; StoreFiles; Release]
| shape_merge :
    ms ≠ [] →
    shape q ms [Start; Acquire; SetResult q ms; LoadMatches;
                StoreMatches (length ms); Release;
                Acquire; LoadFiles; StoreFiles; Release].

(** What holds of the pool after any interleaving: every unit runs the
    steps of its file, the shared attributes are what the steps taken so far
    make them, a unit inside a [with self.lock:] block is the holder of the
    lock, and a unit between the read and the write of a [+=] has read the
    value the counter still has. *)
Record inv (re_search : string → string → exn + bool)
    (fs : string → file) (self : FileSearcher) (paths : list string)
    (st : pool) : Prop := {
  inv_progs : prog <$> threads st = future re_search fs self <$> paths;
  inv_files :
    files_processed (mem st) = sum_list_with (counted ∘ done_of) (threads st);
  inv_matches :
    matches_found (mem st) = sum_list_with (added ∘ done_of) (threads st);
  inv_lock :
    ∀ i th, threads st !! i = Some th → holds (done_of th) = true →
            lock (mem st) = Some i;
  inv_holder :
    ∀ i, lock (mem st) = Some i →
         ∃ th, threads st !! i = Some th ∧ holds (done_of th) = true;
  inv_reg_matches :
    ∀ i th, threads st !! i = Some th →
            last (done_of th) = Some LoadMatches →
            reg th = matches_found (mem st);
  inv_reg_files :
    ∀ i th, threads st !! i = Some th →
            last (done_of th) = Some LoadFiles →
            reg th = files_processed (mem st);
  inv_results :
    ∀ p ms, results (mem st) !! p = Some ms
            ↔ ∃ i th, threads st !! i = Some th
                      ∧ (p, ms) ∈ written (done_of th)
}.

(** The walk lists no path twice, so a batch is written to a fresh key and
    [results] holds the batches of the [SetResult] steps taken. *)
Definition total_ok (st : pool) : Prop :=
  total_len (results (mem st)) = sum_list_with (wlen ∘ done_of) (threads st).

(** ** Vocabulary of the further properties *)

(** The steps the units have still to take. *)
Definition remaining (st : pool) : nat :=
  sum_list_with (λ th, length (prog th) - pc th) (threads st).

(** The same searcher with another worker count. *)
Definition with_workers (w : Z) (self : FileSearcher) : FileSearcher :=
  {| search_term := search_term self;
     directory := directory self;
     exclude_patterns := exclude_patterns self;
     max_workers := w;
     file_extensions := file_extensions self;
     case_sensitive := case_sensitive self |}.


(** A world where every path holds one line that is no JSON document. *)
Definition broken_json : string → file :=
  λ _, {| content := inr "{findme";
          text := inr (Line "{findme" Eof);
          parsed := JSONDecodeError |}.

(** ** The answers [interactive_cli] turns into a searcher *)

(** [s.lstrip()] and [s.strip()] *)
Fixpoint lstrip (s : string) : string :=
  match s with
  | EmptyString => EmptyString
  | String c s' => if Str.is_space c then lstrip s' else s
  end.

Definition strip (s : string) : string := Str.rstrip (lstrip s).

(** [s.lstrip('.')] *)
Fixpoint lstrip_dots (s : string) : string :=
  match s with
  | EmptyString => EmptyString
  | String c s' => if Ascii.eqb c "." then lstrip_dots s' else s
  end.

(** [s.split(',')]; [cur] is the item read so far. *)
Fixpoint split_comma (cur s : string) : list string :=
  match s with
  | EmptyString => [cur]
  | String c s' =>
      if Ascii.eqb c ","
      then cur :: split_comma EmptyString s'
      else split_comma (cur +:+ String c EmptyString) s'
  end.

(** [c.isdigit()] on code points below 256: the ten decimal digits and the
    superscripts two, three and one. *)
Definition is_digit (c : ascii) : bool :=
  let n := N_of_ascii c in
  ((48 <=? n) && (n <=? 57) || (n =? 178) || (n =? 179) || (n =? 185))%N.

Fixpoint all_digits (s : string) : bool :=
  match s with
  | EmptyString => true
  | String c s' => is_digit c && all_digits s'
  end.

(** [s.isdigit()]: some character, and digits only. *)
Definition isdigit (s : string) : bool :=
  match s with
  | EmptyString => false
  | _ => all_digits s
  end.

(** The digits of a numeral in which single underscores may stand between
    digits; [after_digit] tells whether an underscore may come next. *)
Fixpoint drop_underscores (after_digit : bool) (s : string) : option string :=
  match s with
  | EmptyString => Some EmptyString
  | String c s' =>
      if Ascii.eqb c "_" then
        match s' with
        | EmptyString => None
        | _ => if after_digit then drop_underscores false s' else None
        end
      else option_map (String c) (drop_underscores true s')
  end.

Definition ValueError : exn := Exn "invalid literal for int() with base 10".

Section Strip.

Variable space : ascii → bool.

(** The text without the characters [space] holds of at its start, and at
    its end. *)
Fixpoint lstrip_by (s : string) : string :=
  match s with
  | EmptyString => EmptyString
  | String c s' => if space c then lstrip_by s' else s
  end.

Fixpoint rstrip_by (s : string) : string :=
  match s with
  | EmptyString => EmptyString
  | String c s' =>
      match rstrip_by s' with
      | EmptyString => if space c then EmptyString else String c EmptyString
      | r => String c r
      end
  end.

End Strip.

(** The white space [int] skips around a numeral, on code points below
    256: TAB..CR, SPACE, NEL and NBSP.  The separators FS..US, which
    [str.strip] drops, are not among them. *)
Definition int_space (c : ascii) : bool :=
  let n := N_of_ascii c in
  ((9 <=? n) && (n <=? 13) || (n =? 32) || (n =? 133) || (n =? 160))%N.

Definition int_strip (s : string) : string :=
  rstrip_by int_space (lstrip_by int_space s).

(** [int(s)] for a [str]: the white space of [int] around, an optional
    sign, decimal digits with single underscores between them.
    [max_str_digits] is [sys.get_int_max_str_digits()], 0 for no limit; a
    numeral of more digits is refused.  Both refusals are a [ValueError];
    the one value below stands for the class, the messages are not kept
    apart. *)
Definition py_int (max_str_digits : nat) (s : string) : exn + Z :=
  let t := int_strip s in
  let '(negative, body) :=
    match t with
    | String c r =>
        if Ascii.eqb c "-" then (true, r)
        else if Ascii.eqb c "+" then (false, r) else (false, t)
    | EmptyString => (false, t)
    end in
  match drop_underscores false body with
  | Some (String c ds) =>
      match NilEmpty.uint_of_string (String c ds) with
      | Some d =>
          if (0 <? max_str_digits)
             && (max_str_digits <? String.length (String c ds))
          then inl ValueError
          else inr (if negative : bool then (- Z.of_nat (Nat.of_uint d))%Z
                    else Z.of_nat (Nat.of_uint d))
      | None => inl ValueError
      end
  | _ => inl ValueError
  end.

(** What the user types at the six prompts. *)
Record answers : Type := {
  ans_term : string;
  ans_directory : string;
  ans_exclude : string;
  ans_extensions : string;
  ans_threads : string;
  ans_case : string
}.

(** [directory.strip() or '.'] *)
Definition cli_directory (directory : string) : string :=
  match strip directory with
  | EmptyString => "."
  | d => d
  end.

Definition cli_exclude_patterns (exclude_input : string) : list string :=
  match strip exclude_input with
  | EmptyString => ["node_modules"; ".git"; "venv"]
  | _ => map strip (split_comma EmptyString exclude_input)
  end.

Definition cli_file_extensions (extensions_input : string)
    : option (list string) :=
  match strip extensions_input with
  | EmptyString => None
  | _ => Some (map (λ ext, "." +:+ lstrip_dots (strip ext))
                 (split_comma EmptyString extensions_input))
  end.

(** [int(threads_input) if ... isdigit() else 1000], then [max(1, ...)] *)
Definition cli_max_workers (max_str_digits : nat) (threads_input : string)
    : exn + Z :=
  if isdigit (strip threads_input) then
    match py_int max_str_digits threads_input with
    | inl e => inl e
    | inr n => inr (Z.max 1 n)
    end
  else inr (Z.max 1 1000).

Definition cli_case_sensitive (case_sensitive_input : string) : bool :=
  Str.startswith (Str.lower case_sensitive_input) "y".

(** [interactive_cli] up to the construction of the searcher; the search
    and the printing of its results follow. *)
Definition interactive_cli (max_str_digits : nat) (a : answers)
    : exn + FileSearcher :=
  match cli_max_workers max_str_digits (ans_threads a) with
  | inl e => inl e
  | inr max_workers =>
      inr (init (ans_term a) (cli_directory (ans_directory a))
             (Some (cli_exclude_patterns (ans_exclude a)))
             max_workers
             (cli_file_extensions (ans_extensions a))
             (cli_case_sensitive (ans_case a)))
  end.

Definition ex_answers : answers :=
  {| ans_term := "findme"; ans_directory := " ";
     ans_exclude := "node_modules,"; ans_extensions := "txt, .JSON";
     ans_threads := " 007 "; ans_case := "Yes" |}.

(** The ten decimal digits. *)
Definition is_decimal (c : ascii) : bool :=
  let n := N_of_ascii c in ((48 <=? n) && (n <=? 57))%N.

Fixpoint all_decimal (s : string) : bool :=
  match s with
  | EmptyString => true
  | String c s' => is_decimal c && all_decimal s'
  end.

(** ** The highlighting of [print_results] *)

(** The escape sequences of colorama. *)
Definition ESC : ascii := ascii_of_nat 27.
Definition Back_RED : string := String ESC "[41m".
Definition Fore_WHITE : string := String ESC "[37m".
Definition Style_BRIGHT : string := String ESC "[1m".
Definition Style_RESET_ALL : string := String ESC "[0m".

(** The comparison of a character [a] of the text with a character [b] of
    an escaped pattern; under [re.IGNORECASE] both are lowered. *)
Definition same_char (ignorecase : bool) (a b : ascii) : bool :=
  if ignorecase then Ascii.eqb (Str.lower_char a) (Str.lower_char b)
  else Ascii.eqb a b.

(** The pattern [re.escape(term)] matches at the start of [s]. *)
Fixpoint matches_at (ignorecase : bool) (term s : string) {struct term}
    : bool :=
  match term, s with
  | EmptyString, _ => true
  | String _ _, EmptyString => false
  | String b t', String a s' =>
      same_char ignorecase a b && matches_at ignorecase t' s'
  end.

Section Sub.

Variable ignorecase : bool.
Variables term before after : string.

Definition close (inside : nat) : string :=
  match inside with 0 => after | S _ => EmptyString end.

(** [re.sub('(' + re.escape(term) + ')', before + '\\1' + after, s)]: the
    text is read from the left, an occurrence of [term] is copied between
    [before] and [after], and the search goes on behind it.  [inside] is the
    number of characters of the current occurrence that are still to be
    copied.  The empty [term] occurs before every character and at the
    end. *)
Fixpoint sub_literal (inside : nat) (s : string) : string :=
  match s with
  | EmptyString =>
      match inside, term with
      | 0, EmptyString => before +:+ after
      | _, _ => EmptyString
      end
  | String c r =>
      match inside with
      | S k => String c (close k +:+ sub_literal k r)
      | 0 =>
          if matches_at ignorecase term s then
            match String.length term with
            | 0 => before +:+ after +:+ String c (sub_literal 0 r)
            | S k => before +:+ String c (close k +:+ sub_literal k r)
            end
          else String c (sub_literal 0 r)
      end
  end.

End Sub.

Definition highlight_match (self : FileSearcher) (line : string) : string :=
  sub_literal (negb (case_sensitive self)) (search_term self)
    (Back_RED +:+ Fore_WHITE +:+ Style_BRIGHT) Style_RESET_ALL 0 line.

(** [term] occurs somewhere in [s]. *)
Fixpoint occurs (ignorecase : bool) (term s : string) : bool :=
  matches_at ignorecase term s ||
  match s with
  | EmptyString => false
  | String _ r => occurs ignorecase term r
  end.

(** The characters of a string. *)
Definition chars (s : string) : list ascii := list_ascii_of_string s.

(** * Properties *)

(** ** Strings *)

Example splitext_upper :
  Str.splitext "/srv/db/data.BIN" = ("/srv/db/data", ".BIN").
Proof. reflexivity. Qed.

Example splitext_hidden :
  Str.splitext "/home/u/.bashrc" = ("/home/u/.bashrc", EmptyString).
Proof. reflexivity. Qed.

Example splitext_dotted_dir :
  Str.splitext "/srv/v1.2/README" = ("/srv/v1.2/README", EmptyString).
Proof. reflexivity. Qed.

Example rstrip_blanks :
  Str.rstrip ("a b " +:+ String TAB (String CR (String LF EmptyString))) = "a b".
Proof. reflexivity. Qed.

Example lower_mixed : Str.lower "FindMe.JSON" = "findme.json".
Proof. reflexivity. Qed.

Example contains_empty_term : Str.contains EmptyString "abc" = true.
Proof. reflexivity. Qed.

Example str_of_int :
  py_str (JInt (-120)) = "-120" ∧ py_str (JInt 0) = "0"
  ∧ Str.of_nat 0 = "0" ∧ Str.of_nat 12 = "12".
Proof. by vm_compute. Qed.

Example readlines_universal :
  readlines EmptyString ("a" +:+ String CR (String LF ("b" +:+ String CR "c")))
  = ["a" +:+ String LF EmptyString; "b" +:+ String LF EmptyString; "c"].
Proof. reflexivity. Qed.

Lemma lower_char_eqb a b :
  Ascii.eqb a b = true → Ascii.eqb (Str.lower_char a) (Str.lower_char b) = true.
Proof.
  intros H. apply Ascii.eqb_eq in H. subst b. apply Ascii.eqb_refl.
Qed.

Lemma startswith_lower s t :
  Str.startswith s t = true →
  Str.startswith (Str.lower s) (Str.lower t) = true.
Proof.
  revert s. induction t as [|b t IH]; intros [|a s]; simpl; try done.
  intros [H1 H2]%andb_prop.
  by rewrite (lower_char_eqb _ _ H1), (IH _ H2).
Qed.

Lemma contains_nil t :
  Str.contains t EmptyString = Str.startswith EmptyString t.
Proof. simpl. apply orb_false_r. Qed.

Lemma contains_cons t a s :
  Str.contains t (String a s)
  = Str.startswith (String a s) t || Str.contains t s.
Proof. reflexivity. Qed.

Lemma contains_lower t s :
  Str.contains t s = true → Str.contains (Str.lower t) (Str.lower s) = true.
Proof.
  induction s as [|a s IH].
  - rewrite contains_nil. intros H.
    change (Str.lower EmptyString) with EmptyString.
    rewrite contains_nil. by apply (startswith_lower EmptyString).
  - rewrite contains_cons. intros [H|H]%orb_prop.
    + apply startswith_lower in H.
      change (Str.lower (String a s))
        with (String (Str.lower_char a) (Str.lower s)) in *.
      by rewrite contains_cons, H.
    + change (Str.lower (String a s))
        with (String (Str.lower_char a) (Str.lower s)).
      rewrite contains_cons, (IH H). apply orb_true_r.
Qed.

(** On the characters modelled, code points below 256, a text for which
    the configured rule fails does not contain the term either, so there the
    fall-through of a [str] to the last branch adds nothing. *)
Lemma term_in_false_contains self s :
  term_in self s = false → Str.contains (search_term self) s = false.
Proof.
  unfold term_in. destruct (case_sensitive self); simpl.
  - by rewrite orb_false_r.
  - intros H. destruct (Str.contains (search_term self) s) eqn:E; [|done].
    by rewrite (contains_lower _ _ E) in H.
Qed.

(** ** The JSON walk *)

Lemma search_json_arr self l fp path :
  search_json self (JArr l) fp path = search_elems self fp path 0 l.
Proof. reflexivity. Qed.



Lemma search_elems_imap self fp path i l :
  search_elems self fp path i l
  = concat (imap (λ j item,
      let current_path := path +:+ "[" +:+ Str.of_nat (i + j) +:+ "]" in
      if is_container item then search_json self item fp current_path
      else search_value self fp current_path item) l).
Proof.
  revert i. induction l as [|item rest IH]; intros i; [done|].
  cbn [search_elems imap concat]. rewrite Nat.add_0_r. f_equal.
  - by destruct item.
  - rewrite IH. f_equal. apply imap_ext. intros j x _. simpl.
    by rewrite Nat.add_succ_r.
Qed.

Lemma append_assoc (a b c : string) : (a +:+ b) +:+ c = a +:+ (b +:+ c).
Proof.
  induction a as [|x a IH]; [done|].
  change (String x (a +:+ b) +:+ c = String x (a +:+ (b +:+ c))).
  change (String x ((a +:+ b) +:+ c) = String x (a +:+ (b +:+ c))).
  by rewrite IH.
Qed.

Lemma startswith_append p q : Str.startswith (p +:+ q) p = true.
Proof.
  induction p as [|x p IH]; [done|].
  change (Ascii.eqb x x && Str.startswith (p +:+ q) p = true).
  by rewrite Ascii.eqb_refl, IH.
Qed.

(** Induction on a JSON value, with the property at hand for every element
    of an array and every value of an object. *)
Section JsonInd.

Variable P : json → Prop.
Hypothesis Hnull : P JNull.
Hypothesis Hbool : ∀ b, P (JBool b).
Hypothesis Hint : ∀ z, P (JInt z).
Hypothesis Hfloat : ∀ r, P (JFloat r).
Hypothesis Hstr : ∀ s, P (JStr s).
Hypothesis Harr : ∀ l, Forall P l → P (JArr l).
Hypothesis Hobj : ∀ kvs, Forall (λ kv, P kv.2) kvs → P (JObj kvs).

Lemma json_nested_ind (v : json) : P v.
Proof.
  revert v. fix IH 1. intros [|b|z|r|s|l|kvs].
  - apply Hnull.
  - apply Hbool.
  - apply Hint.
  - apply Hfloat.
  - apply Hstr.
  - apply Harr. induction l as [|x l IHl]; constructor; [apply IH|apply IHl].
  - apply Hobj. induction kvs as [|[k x] kvs IHkvs]; constructor;
      [apply IH|apply IHkvs].
Qed.

End JsonInd.

Lemma under_extend fp path q r : under fp (path +:+ q) r → under fp path r.
Proof.
  intros (q' & text & ->). exists (q +:+ q'), text. by rewrite append_assoc.
Qed.

Lemma search_value_under self fp path q v r :
  r ∈ search_value self fp (path +:+ q) v → under fp path r.
Proof.
  intros H. apply (under_extend _ _ q).
  exists EmptyString. unfold search_value in H.
  assert (E : ∀ p, p +:+ EmptyString = p).
  { intros p. induction p as [|x p IH]; [done|].
    change (String x (p +:+ EmptyString) = String x p). by rewrite IH. }
  rewrite E.
  destruct v; simpl in H;
    repeat match type of H with
           | context [if ?b then _ else _] => destruct b
           end;
    first [ by apply not_elem_of_nil in H
          | apply list_elem_of_singleton in H as ->; by eexists ].
Qed.

Lemma search_json_under self fp data :
  ∀ path r, r ∈ search_json self data fp path → under fp path r.
Proof.
  induction data as [|b|z|repr|s|l IH|kvs IH] using json_nested_ind;
    intros path r Hr; try (by apply not_elem_of_nil in Hr).
  - rewrite search_json_arr in Hr. generalize dependent 0.
    induction IH as [|item rest Hitem _ IHrest]; intros i Hr.
    + by apply not_elem_of_nil in Hr.
    + cbn [search_elems] in Hr. apply elem_of_app in Hr as [Hr|Hr].
      * destruct item; try (by eapply search_value_under);
          eapply under_extend, Hitem, Hr.
      * by eapply IHrest.
  - induction IH as [|[k v] rest Hv _ IHrest].
    + by apply not_elem_of_nil in Hr.
    + change (r ∈ (if term_in self k
                   then [json_match fp (path +:+ "." +:+ k) k] else [])
                  ++ (match v with
                      | JObj _ | JArr _ =>
                          search_json self v fp (path +:+ "." +:+ k)
                      | _ => search_value self fp (path +:+ "." +:+ k) v
                      end)
                  ++ search_json self (JObj rest) fp path) in Hr.
      apply elem_of_app in Hr as [Hr|Hr]; [|apply elem_of_app in Hr as [Hr|Hr]].
      * destruct (term_in self k); [|by apply not_elem_of_nil in Hr].
        apply list_elem_of_singleton in Hr as ->. by eexists _, _.
      * simpl in Hv.
        destruct v; try (by eapply search_value_under);
          eapply under_extend, Hv, Hr.
      * by apply IHrest.
Qed.


Lemma search_json_obj_cons self fp path k v rest :
  search_json self (JObj ((k, v) :: rest)) fp path
  = (if term_in self k then [json_match fp (path +:+ "." +:+ k) k] else [])
    ++ (if is_container v then search_json self v fp (path +:+ "." +:+ k)
        else search_value self fp (path +:+ "." +:+ k) v)
    ++ search_json self (JObj rest) fp path.
Proof. by destruct v. Qed.


(** C7: for the document {"a": {"b": "findme"}} and the term "findme" the
    structured pass yields exactly one match, with structural path $.a.b,
    line number 0 and text "$.a.b: findme", under either case rule.  In
    general an object entry is searched under the parent path extended with
    "." and the key, an array element under the parent path extended with
    "[index]", and every record of a walk started at "$" carries line number
    0, the file's path and a structural path that starts with "$". *)
Theorem search_json_path_accumulation :
  (∀ dir excl w exts cs fp,
     search_json (init "findme" dir excl w exts cs)
       (JObj [("a", JObj [("b", JStr "findme")])]) fp "$"
     = [ {| line_num := 0; line := "$.a.b: findme"; file_path := fp;
            json_path := Some "$.a.b" |} ])
  ∧ (∀ self fp path k v rest,
       search_json self (JObj ((k, v) :: rest)) fp path
       = (if term_in self k
          then [json_match fp (path +:+ "." +:+ k) k] else [])
         ++ (if is_container v
             then search_json self v fp (path +:+ "." +:+ k)
             else search_value self fp (path +:+ "." +:+ k) v)
         ++ search_json self (JObj rest) fp path)
  ∧ (∀ self fp path l,
       search_json self (JArr l) fp path
       = concat (imap (λ i item,
           let current_path := path +:+ "[" +:+ Str.of_nat i +:+ "]" in
           if is_container item then search_json self item fp current_path
           else search_value self fp current_path item) l))
  ∧ (∀ self fp data,
       Forall (λ r, line_num r = 0 ∧ file_path r = fp
                    ∧ ∃ p, json_path r = Some p
                           ∧ Str.startswith p "$" = true)
         (search_json self data fp "$")).
Proof.
  split; [|split; [|split]].
  - intros dir excl w exts cs fp. by destruct cs.
  - apply search_json_obj_cons.
  - intros self fp path l. rewrite search_json_arr.
    apply (search_elems_imap self fp path 0 l).
  - intros self fp data. apply Forall_forall. intros r Hr.
    apply search_json_under in Hr as (q & text & ->).
    repeat split. eexists. split; [reflexivity|]. apply startswith_append.
Qed.



(** ** The constructor and the worker count *)

(** C10: with [file_extensions] absent or the empty list, the constructor
    sets the extension list to the eleven defaults; whatever the argument,
    the list it sets is not empty, so [is_searchable_file] on a constructed
    searcher always tests membership and never takes the wildcard branch. *)
Theorem init_extensions_default_nonempty
    (term dir : string) (excl : option (list string)) (w : Z) (cs : bool) :
  file_extensions (init term dir excl w None cs)
  = [".txt"; ".json"; ".sql"; ".py"; ".md"; ".csv"; ".log"; ".xml"; ".html";
     ".js"; ".css"]
  ∧ file_extensions (init term dir excl w (Some []) cs)
    = [".txt"; ".json"; ".sql"; ".py"; ".md"; ".csv"; ".log"; ".xml";
       ".html"; ".js"; ".css"]
  ∧ (∀ exts, file_extensions (init term dir excl w exts cs) ≠ [])
  ∧ (∀ exts path,
       extension_ok (init term dir excl w exts cs) path
       = bool_decide (Str.lower (Str.splitext path).2
                      ∈ file_extensions (init term dir excl w exts cs))).
Proof.
  repeat split.
  - by intros [[|e es]|].
  - by intros [[|e es]|] path.
Qed.

(** C9: for a configured worker count [w] and a non-empty list of [n]
    enumerated files, the executor is created with max(1, min(w, n))
    workers, a number between 1 and [n] also when [w] is zero or negative. *)
Theorem effective_workers_clamp
    (re_search : string → string → exn + bool) (fs : string → file)
    (term dir : string) (excl exts : option (list string)) (cs : bool)
    (w : Z) (all_files : list string) :
  all_files ≠ [] →
  let self := init term dir excl w exts cs in
  let n := Z.of_nat (length all_files) in
  effective_workers self (length all_files) = Z.max 1 (Z.min w n)
  ∧ workers (submit re_search fs self all_files) = Z.max 1 (Z.min w n)
  ∧ (1 ≤ workers (submit re_search fs self all_files) ≤ n)%Z.
Proof.
  intros Hne self n. unfold submit, effective_workers, self, n.
  cbn [workers max_workers init].
  destruct all_files as [|q l]; [done|]. cbn [length]. lia.
Qed.

Lemma effective_workers_clamp_witness :
  workers (submit literal_search ex_world
             (init "findme" "." None (-5) None false)
             ["a.json"; "notes.txt"; "data.bin"]) = 1%Z
  ∧ workers (submit literal_search ex_world
               (init "findme" "." None 1000 None false)
               ["a.json"; "notes.txt"; "data.bin"]) = 3%Z.
Proof.
  split.
  - exact (proj1 (proj2 (effective_workers_clamp literal_search ex_world
                           "findme" "." None None false (-5)
                           ["a.json"; "notes.txt"; "data.bin"]
                           ltac:(discriminate)))).
  - exact (proj1 (proj2 (effective_workers_clamp literal_search ex_world
                           "findme" "." None None false 1000
                           ["a.json"; "notes.txt"; "data.bin"]
                           ltac:(discriminate)))).
Defined.

(** ** The classifier *)

Lemma searchable_iff re_search fs self path :
  searchable re_search fs self path = true
  ↔ is_excluded re_search self path = inr false
    ∧ outcome (is_binary_file fs path) = inr false
    ∧ extension_ok self path = true.
Proof.
  unfold searchable, is_searchable_file, is_binary_file, outcome, bind, lift,
    emit, ret.
  destruct (is_excluded re_search self path) as [e|[|]]; simpl;
    [naive_solver..|].
  destruct (content (fs path)) as [e|bytes]; simpl; [naive_solver|].
  destruct (Str.contains NUL (substring 0 1024 bytes)); simpl; [naive_solver|].
  destruct (extension_ok self path); naive_solver.
Qed.

Lemma process_file_not_searchable re_search fs self path :
  searchable re_search fs self path = false →
  never_scanned (trace (process_file re_search fs self path))
  ∧ task re_search fs self path = [].
Proof.
  unfold task, searchable, process_file, is_searchable_file, is_binary_file,
    never_scanned, trace, outcome, bind, lift, emit, ret.
  destruct (is_excluded re_search self path) as [e|[|]]; simpl;
    [by repeat constructor..|].
  destruct (content (fs path)) as [e|bytes]; simpl; [by repeat constructor|].
  destruct (Str.contains NUL (substring 0 1024 bytes)); simpl;
    [by repeat constructor|].
  destruct (extension_ok self path); [done|]. simpl. by repeat constructor.
Qed.

(** C8: [is_searchable_file] returns [True] exactly when no exclusion
    pattern matches, the binary sniff finds no NUL byte, and the lowercased
    extension is a member of the extension list or that list is empty.  A
    path for which one of the three fails is not searchable, and the unit of
    work for it opens no file for scanning and takes no step on the shared
    attributes. *)
Theorem is_searchable_file_extension_filter
    (re_search : string → string → exn + bool) (fs : string → file)
    (self : FileSearcher) (path : string) :
  (searchable re_search fs self path = true
   ↔ is_excluded re_search self path = inr false
     ∧ outcome (is_binary_file fs path) = inr false
     ∧ (file_extensions self = []
        ∨ Str.lower (Str.splitext path).2 ∈ file_extensions self))
  ∧ (is_excluded re_search self path = inr true
     ∨ outcome (is_binary_file fs path) = inr true
     ∨ (file_extensions self ≠ []
        ∧ Str.lower (Str.splitext path).2 ∉ file_extensions self) →
     searchable re_search fs self path = false
     ∧ never_scanned (trace (process_file re_search fs self path))
     ∧ task re_search fs self path = []).
Proof.
  assert (Hext : extension_ok self path = true
                 ↔ file_extensions self = []
                   ∨ Str.lower (Str.splitext path).2 ∈ file_extensions self).
  { unfold extension_ok. destruct (file_extensions self) as [|e es] eqn:E.
    - naive_solver.
    - rewrite bool_decide_eq_true. naive_solver. }
  split.
  - rewrite searchable_iff. by rewrite Hext.
  - intros H.
    assert (Hs : searchable re_search fs self path = false).
    { destruct (searchable re_search fs self path) eqn:E; [|done].
      apply searchable_iff in E as (E1 & E2 & E3). apply Hext in E3.
      destruct H as [H|[H|[H1 H2]]]; [congruence..|]. naive_solver. }
    split; [done|]. by apply process_file_not_searchable.
Qed.

(** "data.bin" holds the term, and is never opened for scanning under the
    default extensions. *)
Lemma is_searchable_file_extension_filter_witness :
  searchable literal_search ex_world ex_self "data.bin" = false
  ∧ never_scanned
      (trace (process_file literal_search ex_world ex_self "data.bin"))
  ∧ task literal_search ex_world ex_self "data.bin" = [].
Proof.
  apply (proj2 (is_searchable_file_extension_filter
                  literal_search ex_world ex_self "data.bin")).
  right. right. split; [discriminate|].
  apply (bool_decide_unpack _). by vm_compute.
Defined.

(** ** The line scan *)

Lemma scan_lines_spec self path f n acc :
  scan_lines self path f n acc
  = (acc ++ line_records self path n (stream_lines f), stream_fault f).
Proof.
  revert n acc. induction f as [|l rest IH|e]; intros n acc.
  - simpl. by rewrite app_nil_r.
  - cbn [scan_lines stream_lines stream_fault]. rewrite IH.
    unfold line_records. cbn [imap concat]. rewrite Nat.add_0_r. f_equal.
    assert (E : imap ((λ i l0, if term_in self l0
                               then [line_match path (n + i) l0] else []) ∘ S)
                  (stream_lines rest)
                = imap (λ i l0, if term_in self l0
                                then [line_match path (S n + i) l0] else [])
                    (stream_lines rest)).
    { apply imap_ext. intros i x _. simpl. by rewrite Nat.add_succ_r. }
    rewrite E. destruct (term_in self l); [|done]. by rewrite <- app_assoc.
  - simpl. by rewrite app_nil_r.
Qed.

Lemma rstrip_strip_newline l : Str.rstrip l = Str.rstrip (strip_newline l).
Proof.
  induction l as [|c rest IH]; [done|].
  destruct rest as [|c' rest'].
  - simpl. destruct (Ascii.eqb c LF) eqn:E; [|done].
    apply Ascii.eqb_eq in E. by subst c.
  - change (strip_newline (String c (String c' rest')))
      with (String c (strip_newline (String c' rest'))).
    change (Str.rstrip (String c (String c' rest')))
      with (match Str.rstrip (String c' rest') with
            | EmptyString =>
                if Str.is_space c then EmptyString else String c EmptyString
            | r => String c r
            end).
    rewrite IH. reflexivity.
Qed.

Lemma rstrip_cons c s :
  Str.rstrip (String c s)
  = match Str.rstrip s with
    | EmptyString => if Str.is_space c then EmptyString else String c EmptyString
    | r => String c r
    end.
Proof. reflexivity. Qed.

Lemma rstrip_clean s : last_is_space (Str.rstrip s) = false.
Proof.
  induction s as [|c s IH]; [done|]. rewrite rstrip_cons.
  destruct (Str.rstrip s) as [|c' r'] eqn:E.
  - destruct (Str.is_space c) eqn:Ec; [done|]. simpl. by rewrite Ec.
  - exact IH.
Qed.

Lemma rstrip_no_trailing_space s :
  last_is_space s = false → Str.rstrip s = s.
Proof.
  induction s as [|c rest IH]; [done|].
  destruct rest as [|c' rest'].
  - simpl. by intros ->.
  - intros H.
    change (Str.rstrip (String c (String c' rest')))
      with (match Str.rstrip (String c' rest') with
            | EmptyString =>
                if Str.is_space c then EmptyString else String c EmptyString
            | r => String c r
            end).
    by rewrite (IH H).
Qed.

Lemma search_file_faultless fs self path f :
  text (fs path) = inr f → stream_fault f = None →
  outcome (search_file fs self path)
  = inr (line_records self path 1 (stream_lines f)
         ++ structured_pass fs self path).
Proof.
  intros Ht Hf. unfold search_file, structured_pass.
  rewrite Ht, scan_lines_spec, Hf. cbn [app].
  destruct (Str.endswith (Str.lower path) ".json").
  - by destruct (parsed (fs path)); simpl; rewrite ?app_nil_r.
  - simpl. by rewrite app_nil_r.
Qed.

(** C1, as the code has it: when the text read of a file raises, at the
    [open] or after some lines, [search_file] prints one error line naming
    that file and returns; the structured pass is not run.  It returns the
    matches of the lines read before the exception, which is the empty list
    when the [open] itself raised or no line read so far held the term. *)
Theorem search_file_read_error
    (fs : string → file) (self : FileSearcher) (path : string) (e : exn) :
  text (fs path) = inl e
  ∨ (∃ f, text (fs path) = inr f ∧ stream_fault f = Some e) →
  search_file fs self path
  = ([OpenText path; Print (error_line path e)],
     inr (match text (fs path) with
          | inl _ => []
          | inr f => line_records self path 1 (stream_lines f)
          end)).
Proof.
  intros [H|(f & H & Hf)]; unfold search_file; rewrite H; [done|].
  by rewrite scan_lines_spec, Hf.
Qed.

Lemma search_file_read_error_witness :
  search_file ex_world ex_self "broken.log"
  = ([OpenText "broken.log"; Print (error_line "broken.log" EIO)],
     inr (line_records ex_self "broken.log" 1
            ["findme first" +:+ String LF EmptyString])).
Proof.
  apply (search_file_read_error ex_world ex_self "broken.log" EIO).
  right. eexists. split; reflexivity.
Defined.

(** C1 as stated fails: the read of "broken.log" raises after its first
    line, which holds the term; the list returned holds that line's match,
    and the run leaves it in [results] and counts it. *)
Lemma search_file_read_error_keeps_matches :
  text (ex_world "broken.log")
  = inr (Line ("findme first" +:+ String LF EmptyString) (Fault EIO))
  ∧ outcome (search_file ex_world ex_self "broken.log")
    = inr [ {| line_num := 1; line := "findme first";
               file_path := "broken.log"; json_path := None |} ]
  ∧ outcome (search_file ex_world ex_self "broken.log") ≠ inr []
  ∧ matches_found
      (mem (run (sequential 1)
              (submit literal_search ex_world ex_self ["broken.log"]))) = 1.
Proof. by vm_compute. Qed.

(** C2, as the code has it: the line scan yields, in line order and before
    the records of the structured pass, one record for each line read that
    holds the term under the configured rule, whether or not the read
    breaks off later; the record carries the 1-indexed number of the line
    and no structural path, and its text is the line without its newline
    and without any white space that ends it.  The text is the line minus
    its newline exactly when the line minus its newline does not end in
    white space. *)
Theorem search_file_line_records
    (fs : string → file) (self : FileSearcher) (path : string)
    (f : text_stream) :
  text (fs path) = inr f →
  outcome (search_file fs self path)
  = inr (concat (imap (λ i l,
           if term_in self l
           then [ {| line_num := S i; line := Str.rstrip (strip_newline l);
                     file_path := path; json_path := None |} ]
           else []) (stream_lines f))
         ++ match stream_fault f with
            | None => structured_pass fs self path
            | Some _ => []
            end)
  ∧ (∀ l, Str.rstrip (strip_newline l) = strip_newline l
          ↔ last_is_space (strip_newline l) = false).
Proof.
  intros Ht. split.
  - assert (E : concat (imap (λ i l,
                  if term_in self l
                  then [ {| line_num := S i;
                            line := Str.rstrip (strip_newline l);
                            file_path := path; json_path := None |} ]
                  else []) (stream_lines f))
                = line_records self path 1 (stream_lines f)).
    { unfold line_records. f_equal. apply imap_ext. intros i l _. simpl.
      unfold line_match. by rewrite <- rstrip_strip_newline. }
    rewrite E. destruct (stream_fault f) as [e|] eqn:Hf.
    + unfold search_file. rewrite Ht, scan_lines_spec, Hf. simpl.
      by rewrite app_nil_r.
    + by apply search_file_faultless.
  - intros l. split; [|apply rstrip_no_trailing_space].
    intros <-. apply rstrip_clean.
Qed.

Lemma search_file_line_records_witness :
  outcome (search_file ex_world ex_self "notes.txt")
  = inr [ {| line_num := 2; line := "findme"; file_path := "notes.txt";
             json_path := None |} ].
Proof.
  exact (proj1 (search_file_line_records ex_world ex_self "notes.txt"
                  (stream_of [ "alpha" +:+ String LF EmptyString;
                               "findme " +:+ String TAB (String LF EmptyString);
                               "omega" +:+ String LF EmptyString ])
                  eq_refl)).
Defined.

(** C2 as stated fails: of the three lines of "notes.txt" only the second
    holds the term; it ends in a space, a tab and the newline, and the text
    of its record is not that line minus the newline. *)
Lemma search_file_strips_more_than_newline :
  let l2 := "findme " +:+ String TAB (String LF EmptyString) in
  text (ex_world "notes.txt")
  = inr (stream_of [ "alpha" +:+ String LF EmptyString; l2;
                     "omega" +:+ String LF EmptyString ])
  ∧ strip_newline l2 = "findme " +:+ String TAB EmptyString
  ∧ ∃ r, outcome (search_file ex_world ex_self "notes.txt") = inr [r]
         ∧ line_num r = 2
         ∧ line r = "findme"
         ∧ line r ≠ strip_newline l2.
Proof.
  repeat split; try by vm_compute.
  eexists. repeat split; try by vm_compute.
Qed.

(** ** The pool *)

Lemma search_file_returns fs self path :
  outcome (search_file fs self path) = inr (found fs self path).
Proof.
  unfold found, search_file, outcome, bind, emit, ret.
  destruct (text (fs path)) as [e|f]; [done|]. simpl.
  destruct (scan_lines self path f 1 []) as [ms [e|]]; [done|].
  destruct (Str.endswith (Str.lower path) ".json"); [|done].
  by destruct (parsed (fs path)).
Qed.

Lemma task_spec re_search fs self path :
  task re_search fs self path
  = if searchable re_search fs self path
    then merge_actions path (found fs self path) else [].
Proof.
  destruct (searchable re_search fs self path) eqn:E.
  - pose proof (search_file_returns fs self path) as Hf.
    unfold task, searchable, process_file, outcome, bind in *.
    destruct (is_searchable_file re_search fs self path) as [t [e|[|]]];
      try discriminate E.
    destruct (search_file fs self path) as [t' r]. simpl in Hf. by subst r.
  - by apply process_file_not_searchable.
Qed.

Lemma future_shape re_search fs self path :
  shape path (batch re_search fs self path) (future re_search fs self path).
Proof.
  unfold future. rewrite task_spec. unfold batch.
  destruct (searchable re_search fs self path); [|by constructor].
  unfold merge_actions. destruct (found fs self path) as [|m ms].
  - by constructor.
  - exact (shape_merge path (m :: ms) ltac:(done)).
Qed.

(** Case analysis on a position in a unit's steps. *)
Tactic Notation "by_position" ident(n) :=
  do 11 (try (destruct n as [|n]; [try done|])); try done.

Lemma shape_release q ms l n :
  shape q ms l → l !! n = Some Release → holds (take n l) = true.
Proof. intros [Hs|Hs|Hs] H; by_position n. Qed.

Lemma shape_store_matches q ms l n k :
  shape q ms l → l !! n = Some (StoreMatches k) →
  holds (take n l) = true ∧ last (take n l) = Some LoadMatches.
Proof. intros [Hs|Hs|Hs] H; by_position n; by split. Qed.

Lemma shape_store_files q ms l n :
  shape q ms l → l !! n = Some StoreFiles →
  holds (take n l) = true ∧ last (take n l) = Some LoadFiles.
Proof. intros [Hs|Hs|Hs] H; by_position n; by split. Qed.

Lemma shape_reading q ms l n :
  shape q ms l →
  last (take n l) = Some LoadMatches ∨ last (take n l) = Some LoadFiles →
  holds (take n l) = true.
Proof. intros [Hs|Hs|Hs] [H|H]; by_position n. Qed.

Lemma shape_balance q ms l n :
  shape q ms l → holds (take n l) = false → added (take n l) = wlen (take n l).
Proof. intros [Hs|Hs|Hs] H; by_position n. Qed.

Lemma shape_written q ms l n p ms' :
  shape q ms l → (p, ms') ∈ written (take n l) → p = q ∧ ms' = ms ∧ ms ≠ [].
Proof.
  intros [Hs|Hs|Hs] H; by_position n;
    try (by apply not_elem_of_nil in H);
    apply list_elem_of_singleton in H; by simplify_eq.
Qed.

Lemma shape_fresh q ms l n p ms' :
  shape q ms l → l !! n = Some (SetResult p ms') →
  p = q ∧ ms' = ms ∧ written (take n l) = [].
Proof.
  intros [Hs|Hs|Hs] H; by_position n. simpl in H. by simplify_eq.
Qed.

Lemma shape_written_all q ms l :
  shape q ms l → written l = match ms with [] => [] | _ => [(q, ms)] end.
Proof. intros [Hs|Hs|Hs]; subst; try done. by destruct ms. Qed.

Lemma shape_counted q ms l :
  shape q ms l → counted l ≤ 1 ∧ added l = wlen l ∧ holds l = false
  ∧ 0 < length l ≤ 10.
Proof. intros [Hs|Hs|Hs]; subst; repeat split; simpl; lia. Qed.

Lemma sum_list_with_insert {A} (g : A → nat) (l : list A) i x y :
  l !! i = Some x →
  sum_list_with g (<[i:=y]> l) + g x = sum_list_with g l + g y.
Proof.
  revert i. induction l as [|z l IH]; intros [|i] H; simplify_eq/=; [lia|].
  specialize (IH _ H). lia.
Qed.

Lemma sum_list_with_lookup_ext {A} (g h : A → nat) (l : list A) :
  (∀ i x, l !! i = Some x → g x = h x) →
  sum_list_with g l = sum_list_with h l.
Proof.
  induction l as [|x l IH]; intros H; [done|]. simpl.
  rewrite (H 0 x eq_refl), IH; [done|]. intros i. apply (H (S i)).
Qed.

Lemma done_of_step th a r :
  prog th !! pc th = Some a →
  done_of {| prog := prog th; pc := S (pc th); reg := r |} = done_of th ++ [a].
Proof. intros H. unfold done_of. simpl. by apply take_S_r. Qed.

Lemma counted_snoc l a : counted (l ++ [a]) = counted l + counted [a].
Proof. unfold counted. by rewrite sum_list_with_app. Qed.

Lemma added_snoc l a : added (l ++ [a]) = added l + added [a].
Proof. unfold added. by rewrite sum_list_with_app. Qed.

Lemma wlen_snoc l a : wlen (l ++ [a]) = wlen l + wlen [a].
Proof. unfold wlen. by rewrite sum_list_with_app. Qed.

Lemma written_snoc l a : written (l ++ [a]) = written l ++ written [a].
Proof. unfold written. by rewrite omap_app. Qed.

Lemma holds_snoc l a :
  holds (l ++ [a])
  = match a with Acquire => true | Release => false | _ => holds l end.
Proof. unfold holds. by rewrite foldl_app. Qed.

Lemma exec_facts i a r sh sh' r' :
  exec i a r sh = Some (sh', r') →
  files_processed sh'
  = match a with StoreFiles => r + 1 | _ => files_processed sh end
  ∧ matches_found sh'
    = match a with StoreMatches n => r + n | _ => matches_found sh end
  ∧ results sh'
    = match a with
      | SetResult p ms => <[p:=ms]> (results sh)
      | _ => results sh
      end
  ∧ lock sh'
    = match a with Acquire => Some i | Release => None | _ => lock sh end
  ∧ (a = Acquire → lock sh = None)
  ∧ r' = match a with
         | LoadMatches => matches_found sh
         | LoadFiles => files_processed sh
         | _ => r
         end.
Proof.
  destruct a; simpl; try (by intros [= <- <-]).
  destruct (lock sh) eqn:E; [done|]. by intros [= <- <-].
Qed.

Lemma step_cases i st :
  step i st = st
  ∨ ∃ th a sh r,
      threads st !! i = Some th ∧ prog th !! pc th = Some a
      ∧ exec i a (reg th) (mem st) = Some (sh, r)
      ∧ step i st
        = {| workers := workers st;
             threads :=
               <[i := {| prog := prog th; pc := S (pc th); reg := r |}]>
                 (threads st);
             mem := sh |}.
Proof.
  unfold step. destruct (threads st !! i) as [th|] eqn:Ei; [|by left].
  destruct (may_run i st th); [|by left].
  destruct (prog th !! pc th) as [a|] eqn:Ea; [|by left].
  destruct (exec i a (reg th) (mem st)) as [[sh r]|] eqn:Ee; [|by left].
  right. by exists th, a, sh, r.
Qed.

Lemma run_cons i sched st : run (i :: sched) st = run sched (step i st).
Proof. reflexivity. Qed.

Lemma run_app s1 s2 st : run (s1 ++ s2) st = run s2 (run s1 st).
Proof. unfold run. by rewrite foldl_app. Qed.

Section PoolInvariant.

Variable re_search : string → string → exn + bool.
Variable fs : string → file.
Variable self : FileSearcher.
Variable paths : list string.

Lemma unit_shape st i th :
  prog <$> threads st = future re_search fs self <$> paths →
  threads st !! i = Some th →
  ∃ q, paths !! i = Some q
       ∧ shape q (batch re_search fs self q) (prog th).
Proof.
  intros Hp Hi.
  assert (H : (prog <$> threads st) !! i = Some (prog th)).
  { by rewrite list_lookup_fmap, Hi. }
  rewrite Hp in H. apply list_lookup_fmap_Some in H as (q & Hq & Hi').
  exists q. split; [done|]. rewrite Hq. apply future_shape.
Qed.

Lemma inv_submit :
  inv re_search fs self paths (submit re_search fs self paths).
Proof.
  unfold submit. split; simpl.
  - rewrite <- list_fmap_compose. by apply list_fmap_ext.
  - induction paths as [|q l IH]; [done|]. simpl. by rewrite <- IH.
  - induction paths as [|q l IH]; [done|]. simpl. by rewrite <- IH.
  - by intros i th [q [-> _]]%list_lookup_fmap_Some.
  - done.
  - by intros i th [q [-> _]]%list_lookup_fmap_Some.
  - by intros i th [q [-> _]]%list_lookup_fmap_Some.
  - intros p ms. rewrite lookup_empty. split; [done|].
    intros (i & th & [q [-> _]]%list_lookup_fmap_Some & H).
    by apply not_elem_of_nil in H.
Qed.

Lemma written_take_snoc (th : thread) a p ms :
  (p, ms) ∈ written (done_of th ++ [a]) →
  (p, ms) ∈ written (done_of th) ∨ a = SetResult p ms.
Proof.
  rewrite written_snoc. intros [H|H]%elem_of_app; [by left|right].
  destruct a; try (by apply not_elem_of_nil in H).
  apply list_elem_of_singleton in H. by simplify_eq.
Qed.

Lemma inv_step i st :
  inv re_search fs self paths st → inv re_search fs self paths (step i st).
Proof.
  intros [Hp Hf Hm Hl Hhold Hrm Hrf Hr].
  destruct (step_cases i st) as [->|(th & a & sh & r & Hi & Ha & He & ->)];
    [done|].
  destruct (exec_facts _ _ _ _ _ _ He) as (Ef & Em & Er & El & Eacq & Ereg).
  pose proof (done_of_step th a r Ha) as Hd.
  pose proof (lookup_lt_Some _ _ _ Hi) as Hlt.
  destruct (unit_shape st i th Hp Hi) as (q & Hq & Hs).
  set (th' := {| prog := prog th; pc := S (pc th); reg := r |}) in *.
  assert (Hnew : <[i:=th']> (threads st) !! i = Some th')
    by (by apply list_lookup_insert_eq).
  (* a unit that has read a counter holds the lock, so no other unit
     writes to the counter before it does *)
  assert (Hquiet : ∀ j thj, j ≠ i → threads st !! j = Some thj →
            last (done_of thj) = Some LoadMatches
            ∨ last (done_of thj) = Some LoadFiles →
            files_processed sh = files_processed (mem st)
            ∧ matches_found sh = matches_found (mem st)).
  { intros j thj Hne Hj Hread.
    destruct (unit_shape st j thj Hp Hj) as (qj & Hqj & Hsj).
    pose proof (Hl _ _ Hj (shape_reading _ _ _ _ Hsj Hread)) as Hlj.
    rewrite Ef, Em. destruct a; try done.
    - destruct (shape_store_matches _ _ _ _ _ Hs Ha) as [Hh _].
      pose proof (Hl _ _ Hi Hh). congruence.
    - destruct (shape_store_files _ _ _ _ Hs Ha) as [Hh _].
      pose proof (Hl _ _ Hi Hh). congruence. }
  split; cbn [threads mem].
  - rewrite list_fmap_insert. simpl. rewrite list_insert_id; [done|].
    by rewrite list_lookup_fmap, Hi.
  - pose proof (sum_list_with_insert (counted ∘ done_of) _ i th th' Hi) as E.
    simpl in E. rewrite Hd, counted_snoc in E. rewrite Ef.
    destruct a; try (simpl in E; lia).
    destruct (shape_store_files _ _ _ _ Hs Ha) as [_ Hlast].
    rewrite (Hrf _ _ Hi Hlast). simpl in E. lia.
  - pose proof (sum_list_with_insert (added ∘ done_of) _ i th th' Hi) as E.
    simpl in E. rewrite Hd, added_snoc in E. rewrite Em.
    destruct a; try (simpl in E; lia).
    destruct (shape_store_matches _ _ _ _ _ Hs Ha) as [_ Hlast].
    rewrite (Hrm _ _ Hi Hlast). simpl in E. lia.
  - intros j thj Hj Hh. destruct (decide (j = i)) as [->|Hne].
    + rewrite Hnew in Hj. injection Hj as <-.
      rewrite Hd, holds_snoc in Hh. rewrite El.
      destruct a; try done; by apply (Hl _ th).
    + rewrite list_lookup_insert_ne in Hj by done.
      pose proof (Hl _ _ Hj Hh) as Hlj. rewrite El.
      destruct a; try done.
      * by rewrite Eacq in Hlj.
      * pose proof (Hl _ _ Hi (shape_release _ _ _ _ Hs Ha)) as Hli.
        congruence.
  - intros j. rewrite El. intros Hj.
    assert (Hsame : lock (mem st) = Some j →
              match a with Acquire | Release => False | _ => True end →
              ∃ thj, <[i:=th']> (threads st) !! j = Some thj
                     ∧ holds (done_of thj) = true).
    { intros Hlk Ha'. destruct (Hhold _ Hlk) as (thj & Hj' & Hh').
      destruct (decide (j = i)) as [->|Hne].
      - exists th'. split; [done|]. rewrite Hd, holds_snoc.
        destruct a; try done; congruence.
      - exists thj. by rewrite list_lookup_insert_ne. }
    destruct a; try done; try (by apply Hsame).
    injection Hj as <-. exists th'. split; [done|].
    by rewrite Hd, holds_snoc.
  - intros j thj Hj Hlast. destruct (decide (j = i)) as [->|Hne].
    + rewrite Hnew in Hj. injection Hj as <-.
      rewrite Hd, last_snoc in Hlast. injection Hlast as ->.
      simpl. by rewrite Em, <- Ereg.
    + rewrite list_lookup_insert_ne in Hj by done.
      rewrite (Hrm _ _ Hj Hlast).
      symmetry. by apply (Hquiet j thj Hne Hj); left.
  - intros j thj Hj Hlast. destruct (decide (j = i)) as [->|Hne].
    + rewrite Hnew in Hj. injection Hj as <-.
      rewrite Hd, last_snoc in Hlast. injection Hlast as ->.
      simpl. by rewrite Ef, <- Ereg.
    + rewrite list_lookup_insert_ne in Hj by done.
      rewrite (Hrf _ _ Hj Hlast).
      symmetry. by apply (Hquiet j thj Hne Hj); right.
  - intros p ms. rewrite Er. split.
    + intros Hlook.
      assert (results (mem st) !! p = Some ms ∨ a = SetResult p ms)
        as [Hold| ->].
      { destruct a as [| | |p0 ms0| | | |]; try (by left).
        destruct (decide (p0 = p)) as [->|Hne].
        - rewrite lookup_insert_eq in Hlook. right. congruence.
        - rewrite lookup_insert_ne in Hlook by done. by left. }
      * apply Hr in Hold as (j & thj & Hj & Hw).
        destruct (decide (j = i)) as [->|Hne].
        -- exists i, th'. split; [done|].
           rewrite Hd, written_snoc. apply elem_of_app. left. congruence.
        -- exists j, thj. by rewrite list_lookup_insert_ne.
      * exists i, th'. split; [done|].
        rewrite Hd, written_snoc. apply elem_of_app. right. by left.
    + intros (j & thj & Hj & Hw).
      assert ((∃ j thj, threads st !! j = Some thj
                        ∧ (p, ms) ∈ written (done_of thj))
              ∨ a = SetResult p ms) as [Hold| ->].
      { destruct (decide (j = i)) as [->|Hne].
        - rewrite Hnew in Hj. injection Hj as <-.
          rewrite Hd in Hw. apply written_take_snoc in Hw as [Hw| ->];
            [left; eauto|by right].
        - rewrite list_lookup_insert_ne in Hj by done. left; eauto. }
      * pose proof Hold as (j' & th'' & Hj' & Hw').
        apply Hr in Hold.
        destruct a as [| | |p0 ms0| | | |]; try done.
        destruct (decide (p0 = p)) as [->|Hne]; [|by rewrite lookup_insert_ne].
        rewrite lookup_insert_eq. f_equal.
        destruct (shape_fresh _ _ _ _ _ _ Hs Ha) as (-> & -> & _).
        destruct (unit_shape st j' th'' Hp Hj') as (q' & Hq' & Hs').
        by destruct (shape_written _ _ _ _ _ _ Hs' Hw') as (-> & -> & _).
      * by rewrite lookup_insert_eq.
Qed.

Lemma inv_run sched st :
  inv re_search fs self paths st → inv re_search fs self paths (run sched st).
Proof.
  revert st. induction sched as [|i sched IH]; intros st H; [done|].
  rewrite run_cons. by apply IH, inv_step.
Qed.

End PoolInvariant.

(** *** A run that has completed *)

Lemma finished_done st i th :
  finished st = true → threads st !! i = Some th → done_of th = prog th.
Proof.
  unfold finished. intros Hf Hi.
  apply Is_true_true, forallb_True in Hf.
  apply (Forall_lookup_1 _ _ _ _ Hf) in Hi.
  unfold thread_done in Hi. apply Is_true_true, Nat.eqb_eq in Hi.
  unfold done_of. apply take_ge. lia.
Qed.

Lemma sum_done_finished (g : list action → nat) st :
  finished st = true →
  sum_list_with (g ∘ done_of) (threads st)
  = sum_list_with g (prog <$> threads st).
Proof.
  intros Hf.
  assert (H : ∀ i th, threads st !! i = Some th → done_of th = prog th)
    by (intros; by eapply finished_done).
  clear Hf. induction (threads st) as [|th l IH]; [done|]. simpl.
  rewrite (H 0 th eq_refl), IH; [done|]. intros i. apply (H (S i)).
Qed.

Lemma sum_list_with_fmap' {A B} (g : B → nat) (h : A → B) (l : list A) :
  sum_list_with g (h <$> l) = sum_list_with (g ∘ h) l.
Proof. induction l as [|x l IH]; [done|]. simpl. f_equal. exact IH. Qed.

Lemma counted_task re_search fs self q :
  counted (task re_search fs self q)
  = if searchable re_search fs self q then 1 else 0.
Proof.
  rewrite task_spec. destruct (searchable re_search fs self q); [|done].
  unfold merge_actions. by destruct (found fs self q).
Qed.

Lemma added_task re_search fs self q :
  added (task re_search fs self q) = length (batch re_search fs self q).
Proof.
  rewrite task_spec. unfold batch.
  destruct (searchable re_search fs self q); [|done].
  unfold merge_actions. destruct (found fs self q); [done|]. simpl. lia.
Qed.

Lemma counted_future re_search fs self q :
  counted (future re_search fs self q)
  = if searchable re_search fs self q then 1 else 0.
Proof. apply counted_task. Qed.

Lemma added_future re_search fs self q :
  added (future re_search fs self q) = length (batch re_search fs self q).
Proof. apply added_task. Qed.

Lemma count_searchable (f : string → bool) (l : list string) :
  sum_list_with (λ q, if f q then 1 else 0) l
  = length (filter (λ q, f q = true) l).
Proof.
  induction l as [|q l IH]; [done|]. rewrite filter_cons.
  cbn [sum_list_with]. rewrite IH.
  destruct (decide (f q = true)) as [E|E].
  - by rewrite E.
  - by destruct (f q).
Qed.

(** *** The units run one after the other *)

Lemma sum_list_with_zero {A} (g : A → nat) (l : list A) :
  Forall (λ x, g x = 0) l → sum_list_with g l = 0.
Proof. induction 1 as [|x l Hx _ IH]; [done|]. simpl. lia. Qed.

(** With the units before it completed and the units after it still in the
    queue, a unit may run on a pool of at least one worker. *)
Lemma may_run_in_turn w l1 l2 th sh :
  (1 ≤ w)%Z →
  Forall (λ t, thread_done t = true ∧ begun t = true) l1 →
  Forall (λ t, pc t = 0) l2 →
  may_run (length l1)
    {| workers := w; threads := l1 ++ th :: l2; mem := sh |} th = true.
Proof.
  intros Hw H1 H2. unfold may_run.
  destruct (0 <? pc th) eqn:E; [done|]. apply Nat.ltb_ge in E.
  cbn [orb threads workers]. rewrite take_app_length.
  apply andb_true_intro. split.
  - apply forallb_forall. intros t Ht%list_elem_of_In.
    by apply (proj1 (Forall_forall _ _) H1) in Ht as [_ Ht].
  - unfold busy. cbn [threads].
    rewrite sum_list_with_zero; [apply Z.ltb_lt; lia|].
    apply Forall_app. split; [|constructor].
    + eapply Forall_impl; [exact H1|]. intros t [Ht _]. unfold in_flight.
      unfold thread_done in Ht. apply Nat.eqb_eq in Ht.
      by rewrite Ht, Nat.ltb_irrefl, andb_false_r.
    + unfold in_flight. by replace (pc th) with 0 by lia.
    + eapply Forall_impl; [exact H2|]. intros t Ht. unfold in_flight.
      by rewrite Ht.
Qed.

Lemma step_middle w l1 l2 pr n r sh :
  (1 ≤ w)%Z →
  Forall (λ t, thread_done t = true ∧ begun t = true) l1 →
  Forall (λ t, pc t = 0) l2 →
  step (length l1)
    {| workers := w;
       threads := l1 ++ {| prog := pr; pc := n; reg := r |} :: l2;
       mem := sh |}
  = match pr !! n with
    | Some a =>
        match exec (length l1) a r sh with
        | Some (sh', r') =>
            {| workers := w;
               threads := l1 ++ {| prog := pr; pc := S n; reg := r' |} :: l2;
               mem := sh' |}
        | None =>
            {| workers := w;
               threads := l1 ++ {| prog := pr; pc := n; reg := r |} :: l2;
               mem := sh |}
        end
    | None =>
        {| workers := w;
           threads := l1 ++ {| prog := pr; pc := n; reg := r |} :: l2;
           mem := sh |}
    end.
Proof.
  intros Hw H1 H2. unfold step. cbn [threads].
  rewrite list_lookup_middle by done.
  rewrite may_run_in_turn by done. cbn [prog pc reg mem workers threads].
  destruct (pr !! n) as [a|]; [|done].
  destruct (exec (length l1) a r sh) as [[sh' r']|]; [|done].
  f_equal. rewrite insert_app_r_alt by done.
  by rewrite Nat.sub_diag.
Qed.

Lemma run_unit q ms pr w l1 l2 sh :
  (1 ≤ w)%Z →
  Forall (λ t, thread_done t = true ∧ begun t = true) l1 →
  Forall (λ t, pc t = 0) l2 →
  shape q ms pr → lock sh = None →
  ∃ sh' r,
    lock sh' = None
    ∧ run (replicate 10 (length l1))
        {| workers := w;
           threads := l1 ++ {| prog := pr; pc := 0; reg := 0 |} :: l2;
           mem := sh |}
      = {| workers := w;
           threads := l1 ++ {| prog := pr; pc := length pr; reg := r |} :: l2;
           mem := sh' |}.
Proof.
  intros Hw H1 H2 Hs Hl. destruct sh as [res f m lk]. cbn [lock] in Hl.
  subst lk.
  destruct Hs; cbn [replicate]; rewrite ?run_cons;
    repeat (rewrite step_middle by done;
            cbn [lookup list_lookup exec lock matches_found
                 files_processed]);
    (do 2 eexists; split; [|reflexivity]; reflexivity).
Qed.

Lemma run_sequential_from re_search fs self w qs l1 sh :
  (1 ≤ w)%Z →
  lock sh = None →
  Forall (λ th, thread_done th = true ∧ begun th = true) l1 →
  finished
    (run (flat_map (λ i, replicate 10 i) (seq (length l1) (length qs)))
       {| workers := w;
          threads :=
            l1 ++ map (λ q, {| prog := future re_search fs self q; pc := 0;
                               reg := 0 |}) qs;
          mem := sh |}) = true.
Proof.
  intros Hw. revert l1 sh. induction qs as [|q qs IH]; intros l1 sh Hl Hd.
  - simpl. rewrite app_nil_r. unfold finished. simpl.
    apply forallb_forall. intros th Hin.
    by apply (proj1 (Forall_forall _ _) Hd), list_elem_of_In.
  - cbn [length seq flat_map map]. rewrite run_app.
    destruct (run_unit q (batch re_search fs self q)
                (future re_search fs self q) w l1
                (map (λ q, {| prog := future re_search fs self q; pc := 0;
                              reg := 0 |}) qs)
                sh Hw Hd) as (sh' & r & Hl' & ->);
      [by apply Forall_fmap, Forall_true|apply future_shape|done|].
    specialize (IH (l1 ++ [{| prog := future re_search fs self q;
                              pc := length (future re_search fs self q);
                              reg := r |}])
                  sh' Hl').
    rewrite length_app, Nat.add_1_r, <- app_assoc in IH. apply IH.
    apply Forall_app. split; [done|]. constructor; [|done].
    split; [|done]. unfold thread_done. simpl. apply Nat.eqb_refl.
Qed.

Lemma run_sequential_finished re_search fs self paths :
  finished (run (sequential (length paths)) (submit re_search fs self paths))
  = true.
Proof.
  apply (run_sequential_from re_search fs self _ paths [] init_shared);
    [unfold effective_workers; lia|done|by constructor].
Qed.

(** *** What [search_directory] returns *)

Lemma search_directory_Some re_search fs self all_files sched sh :
  search_directory re_search fs self all_files sched = Some sh →
  ∃ st, inv re_search fs self all_files st ∧ finished st = true
        ∧ mem st = sh.
Proof.
  unfold search_directory. destruct all_files as [|q l] eqn:E.
  - intros [= <-]. exists (submit re_search fs self []).
    split; [apply inv_submit|done].
  - rewrite <- E.
    destruct (finished (run sched (submit re_search fs self all_files)))
      eqn:Hf; [|done].
    intros [= <-]. eexists. split; [|done]. apply inv_run, inv_submit.
Qed.

Lemma search_directory_sequential re_search fs self all_files :
  ∃ sh, search_directory re_search fs self all_files
          (sequential (length all_files)) = Some sh.
Proof.
  unfold search_directory. destruct all_files as [|q l] eqn:E; [by eexists|].
  rewrite <- E, run_sequential_finished. by eexists.
Qed.

Lemma batch_not_searchable re_search fs self p :
  searchable re_search fs self p = false → batch re_search fs self p = [].
Proof. unfold batch. by intros ->. Qed.

Lemma finished_results re_search fs self all_files st p ms :
  inv re_search fs self all_files st → finished st = true →
  results (mem st) !! p = Some ms
  ↔ p ∈ all_files ∧ ms = batch re_search fs self p ∧ ms ≠ [].
Proof.
  intros Hi Hf. rewrite (inv_results _ _ _ _ _ Hi). split.
  - intros (i & th & Hth & Hw).
    destruct (unit_shape _ _ _ _ _ _ _ (inv_progs _ _ _ _ _ Hi) Hth)
      as (q & Hq & Hs).
    destruct (shape_written _ _ _ _ _ _ Hs Hw) as (-> & -> & Hne).
    split; [|done]. by eapply list_elem_of_lookup_2.
  - intros (Hin & -> & Hne).
    apply list_elem_of_lookup_1 in Hin as [i Hq].
    assert (Hth : is_Some (threads st !! i)).
    { apply lookup_lt_is_Some.
      rewrite <- (length_fmap prog), (inv_progs _ _ _ _ _ Hi), length_fmap.
      by eapply lookup_lt_Some. }
    destruct Hth as [th Hth]. exists i, th. split; [done|].
    destruct (unit_shape _ _ _ _ _ _ _ (inv_progs _ _ _ _ _ Hi) Hth)
      as (q & Hq' & Hs).
    assert (q = p) as -> by congruence.
    rewrite (finished_done _ _ _ Hf Hth), (shape_written_all _ _ _ Hs).
    destruct (batch re_search fs self p); [done|]. by left.
Qed.

(** C4: a run of [search_directory] over the enumerated files completes;
    under every interleaving of the pool, once it has completed,
    [files_processed] is the number of enumerated files for which
    [is_searchable_file] returned true and [matches_found] is the sum of the
    lengths of the files' batches.  The unit of a file that fails the
    classification has no batch and takes no step on either counter. *)
Theorem search_directory_counters
    (re_search : string → string → exn + bool) (fs : string → file)
    (self : FileSearcher) (all_files : list string) :
  (∃ sh, search_directory re_search fs self all_files
           (sequential (length all_files)) = Some sh)
  ∧ (∀ sched sh,
       search_directory re_search fs self all_files sched = Some sh →
       files_processed sh
       = length (filter (λ p, searchable re_search fs self p = true) all_files)
       ∧ matches_found sh
         = sum_list_with (λ p, length (batch re_search fs self p)) all_files)
  ∧ (∀ p, searchable re_search fs self p = false →
          batch re_search fs self p = []
          ∧ counted (task re_search fs self p) = 0
          ∧ added (task re_search fs self p) = 0).
Proof.
  split; [apply search_directory_sequential|split].
  - intros sched sh (st & Hi & Hf & <-)%search_directory_Some. split.
    + rewrite (inv_files _ _ _ _ _ Hi), (sum_done_finished counted _ Hf).
      rewrite (inv_progs _ _ _ _ _ Hi), sum_list_with_fmap'.
      rewrite <- count_searchable. apply sum_list_with_lookup_ext.
      intros _ q _. apply counted_future.
    + rewrite (inv_matches _ _ _ _ _ Hi), (sum_done_finished added _ Hf).
      rewrite (inv_progs _ _ _ _ _ Hi), sum_list_with_fmap'.
      apply sum_list_with_lookup_ext. intros _ q _. apply added_future.
  - intros p Hp. rewrite counted_task, added_task, Hp.
    by rewrite (batch_not_searchable _ _ _ _ Hp).
Qed.

(** C5: a run of [search_directory] completes; under every interleaving,
    once it has completed, a path is a key of [results] exactly when it is
    one of the enumerated files and its batch is not empty, and the value
    under it is that batch.  A searchable file without a match and a file
    that fails the classification are no keys. *)
Theorem results_keys_have_matches
    (re_search : string → string → exn + bool) (fs : string → file)
    (self : FileSearcher) (all_files : list string) :
  (∃ sh, search_directory re_search fs self all_files
           (sequential (length all_files)) = Some sh)
  ∧ (∀ sched sh,
       search_directory re_search fs self all_files sched = Some sh →
       ∀ p,
         (p ∈ dom (results sh)
          ↔ p ∈ all_files ∧ batch re_search fs self p ≠ [])
         ∧ (∀ ms, results sh !! p = Some ms → ms = batch re_search fs self p)
         ∧ (searchable re_search fs self p = true → found fs self p = [] →
            results sh !! p = None)
         ∧ (searchable re_search fs self p = false →
            results sh !! p = None)).
Proof.
  split; [apply search_directory_sequential|].
  intros sched sh (st & Hi & Hf & <-)%search_directory_Some p.
  pose proof (λ ms, finished_results _ _ _ _ st p ms Hi Hf) as Hr.
  assert (Hnone : batch re_search fs self p = [] →
                  results (mem st) !! p = None).
  { intros Hb. apply eq_None_not_Some. intros [ms E].
    apply Hr in E as (_ & -> & Hne). done. }
  split; [split|split; [|split]].
  - intros [ms Hms]%elem_of_dom. apply Hr in Hms. naive_solver.
  - intros [Hin Hne]. apply elem_of_dom. eexists. by apply Hr.
  - intros ms Hms. by apply Hr in Hms as (_ & -> & _).
  - intros Hs Hfound. apply Hnone. unfold batch. by rewrite Hs.
  - intros Hs. by apply Hnone, batch_not_searchable.
Qed.

(** *** The two critical sections *)

Lemma total_len_insert (m : gmap string (list match_record)) p ms :
  m !! p = None → total_len (<[p:=ms]> m) = length ms + total_len m.
Proof.
  intros H. unfold total_len.
  rewrite map_fold_insert_L; [done| |done]. intros. lia.
Qed.

Section Atomicity.

Variable re_search : string → string → exn + bool.
Variable fs : string → file.
Variable self : FileSearcher.
Variable paths : list string.
Hypothesis paths_distinct : NoDup paths.

Lemma total_step i st :
  inv re_search fs self paths st → total_ok st → total_ok (step i st).
Proof.
  intros Hinv Ht.
  destruct (step_cases i st) as [->|(th & a & sh & r & Hi & Ha & He & ->)];
    [done|].
  destruct (exec_facts _ _ _ _ _ _ He) as (_ & _ & Er & _ & _ & _).
  pose proof (done_of_step th a r Ha) as Hd.
  destruct (unit_shape _ _ _ _ _ _ _ (inv_progs _ _ _ _ _ Hinv) Hi)
    as (q & Hq & Hs).
  pose proof (sum_list_with_insert (wlen ∘ done_of) _ i th
                {| prog := prog th; pc := S (pc th); reg := r |} Hi) as E.
  simpl in E. rewrite Hd, wlen_snoc in E.
  unfold total_ok in *. simpl. rewrite Er.
  destruct a as [| | |p0 ms0| | | |]; try (simpl in E; lia).
  rewrite total_len_insert; [simpl in E; lia|].
  destruct (shape_fresh _ _ _ _ _ _ Hs Ha) as (-> & -> & Hw).
  apply eq_None_not_Some. intros [ms' Hms'].
  apply (inv_results _ _ _ _ _ Hinv) in Hms' as (j & th' & Hj & Hw').
  destruct (unit_shape _ _ _ _ _ _ _ (inv_progs _ _ _ _ _ Hinv) Hj)
    as (q' & Hq' & Hs').
  destruct (shape_written _ _ _ _ _ _ Hs' Hw') as (-> & _ & _).
  assert (j = i) as -> by (by eapply NoDup_lookup).
  assert (th' = th) as -> by congruence.
  unfold done_of in Hw'. rewrite Hw in Hw'. by apply not_elem_of_nil in Hw'.
Qed.

Lemma total_run sched st :
  inv re_search fs self paths st → total_ok st → total_ok (run sched st).
Proof.
  revert st. induction sched as [|i sched IH]; intros st Hi Ht; [done|].
  rewrite run_cons. apply IH; [by apply inv_step|by apply total_step].
Qed.

Lemma total_submit : total_ok (submit re_search fs self paths).
Proof.
  unfold total_ok, submit. simpl. clear paths_distinct.
  induction paths as [|q l IH]; [done|]. simpl. by rewrite <- IH.
Qed.

(** With the lock free no unit is between its [SetResult] and the write
    of its [matches_found += ...]. *)
Lemma lock_free_balanced st :
  inv re_search fs self paths st → total_ok st → lock (mem st) = None →
  matches_found (mem st) = total_len (results (mem st)).
Proof.
  intros Hinv Ht Hl. rewrite Ht, (inv_matches _ _ _ _ _ Hinv).
  apply sum_list_with_lookup_ext. intros i th Hi. simpl.
  destruct (unit_shape _ _ _ _ _ _ _ (inv_progs _ _ _ _ _ Hinv) Hi)
    as (q & Hq & Hs).
  apply (shape_balance _ _ _ _ Hs).
  destruct (holds (take (pc th) (prog th))) eqn:E; [|done].
  pose proof (inv_lock _ _ _ _ _ Hinv i th Hi E). congruence.
Qed.

Lemma finished_lock_free st :
  inv re_search fs self paths st → finished st = true → lock (mem st) = None.
Proof.
  intros Hinv Hf. apply eq_None_not_Some. intros [i Hi].
  destruct (inv_holder _ _ _ _ _ Hinv i Hi) as (th & Hth & Hh).
  destruct (unit_shape _ _ _ _ _ _ _ (inv_progs _ _ _ _ _ Hinv) Hth)
    as (q & Hq & Hs).
  rewrite (finished_done _ _ _ Hf Hth) in Hh.
  destruct (shape_counted _ _ _ Hs) as (_ & _ & Hh' & _). congruence.
Qed.

Lemma finished_size st :
  inv re_search fs self paths st → finished st = true →
  size (results (mem st))
  ≤ length (filter (λ p, searchable re_search fs self p = true) paths).
Proof.
  intros Hinv Hf.
  rewrite <- size_dom, <- (size_list_to_set (C:=gset string));
    [|by apply NoDup_filter].
  apply subseteq_size. intros p [ms Hms]%elem_of_dom.
  apply (finished_results _ _ _ _ _ _ _ Hinv Hf) in Hms as (Hin & -> & Hne).
  apply elem_of_list_to_set, list_elem_of_filter. split; [|done].
  unfold batch in Hne. by destruct (searchable re_search fs self p).
Qed.

End Atomicity.

Lemma finished_files re_search fs self paths st :
  inv re_search fs self paths st → finished st = true →
  files_processed (mem st)
  = length (filter (λ p, searchable re_search fs self p = true) paths).
Proof.
  intros Hi Hf.
  rewrite (inv_files _ _ _ _ _ Hi), (sum_done_finished counted _ Hf).
  rewrite (inv_progs _ _ _ _ _ Hi), sum_list_with_fmap'.
  rewrite <- count_searchable. apply sum_list_with_lookup_ext.
  intros _ q _. apply counted_future.
Qed.

(** C3, as the code has it: a unit with a non-empty batch takes the lock
    twice.  The write of the batch into [results] and the read and write of
    [matches_found += len(matches)] are inside the first block, so under
    every interleaving, whenever the lock is free, [matches_found] is the
    number of matches held in [results]; the read and write of
    [files_processed += 1] are inside a second block, entered after the
    first has been left.  Once every unit has completed the lock is free
    and [files_processed] counts at least the files that are keys of
    [results].  The enumerated paths are pairwise distinct, as the walk
    yields them. *)
Theorem merge_and_count_sections
    (re_search : string → string → exn + bool) (fs : string → file)
    (self : FileSearcher) (all_files : list string) (sched : list nat) :
  NoDup all_files →
  let st := run sched (submit re_search fs self all_files) in
  (∀ p m ms,
     merge_actions p (m :: ms)
     = [Acquire; SetResult p (m :: ms);
        LoadMatches; StoreMatches (length (m :: ms)); Release;
        Acquire; LoadFiles; StoreFiles; Release])
  ∧ (lock (mem st) = None →
     matches_found (mem st) = total_len (results (mem st)))
  ∧ (finished st = true →
     lock (mem st) = None
     ∧ size (results (mem st)) ≤ files_processed (mem st)).
Proof.
  intros Hnd st.
  assert (Hinv : inv re_search fs self all_files st)
    by apply inv_run, inv_submit.
  assert (Ht : total_ok st)
    by (eapply total_run; [done|apply inv_submit|apply total_submit]).
  split; [done|split].
  - by apply (lock_free_balanced re_search fs self all_files).
  - intros Hf. split.
    + by apply (finished_lock_free re_search fs self all_files).
    + rewrite (finished_files _ _ _ _ _ Hinv Hf).
      by apply finished_size.
Qed.

(** Both units are taken from the queue; unit 1, submitted last, is the
    first at the lock and takes its first block while unit 0 waits: the lock
    is free again and the match of unit 1 is in [results] and counted. *)
Lemma merge_and_count_sections_witness :
  matches_found
    (mem (run [0; 1; 1; 1; 0; 1; 1; 1]
            (submit literal_search ex_world ex_self ["a.json"; "notes.txt"])))
  = total_len
      (results
         (mem (run [0; 1; 1; 1; 0; 1; 1; 1]
                 (submit literal_search ex_world ex_self
                    ["a.json"; "notes.txt"])))).
Proof.
  refine (proj1 (proj2 (merge_and_count_sections literal_search ex_world
                          ex_self ["a.json"; "notes.txt"]
                          [0; 1; 1; 1; 0; 1; 1; 1] _)) _).
  - apply (bool_decide_unpack _). by vm_compute.
  - by vm_compute.
Defined.

(** C3 as stated fails: the unit of "notes.txt" leaves its first block
    with its sixth step; the lock is free, [results] holds the batch and
    [matches_found] counts it, and [files_processed] is still 0. *)
Lemma merge_visible_before_count :
  task literal_search ex_world ex_self "notes.txt"
  = [Acquire;
     SetResult "notes.txt"
       [ {| line_num := 2; line := "findme"; file_path := "notes.txt";
            json_path := None |} ];
     LoadMatches; StoreMatches 1; Release;
     Acquire; LoadFiles; StoreFiles; Release]
  ∧ lock (mem (run [0; 0; 0; 0; 0; 0]
                 (submit literal_search ex_world ex_self ["notes.txt"])))
    = None
  ∧ results (mem (run [0; 0; 0; 0; 0; 0]
                    (submit literal_search ex_world ex_self ["notes.txt"])))
    !! "notes.txt"
    = Some [ {| line_num := 2; line := "findme"; file_path := "notes.txt";
                json_path := None |} ]
  ∧ matches_found
      (mem (run [0; 0; 0; 0; 0; 0]
              (submit literal_search ex_world ex_self ["notes.txt"]))) = 1
  ∧ files_processed
      (mem (run [0; 0; 0; 0; 0; 0]
              (submit literal_search ex_world ex_self ["notes.txt"]))) = 0.
Proof. by vm_compute. Qed.

(** * Further properties *)

(** ** The pool under every interleaving *)

Lemma step_taken i st th a sh r :
  threads st !! i = Some th → may_run i st th = true →
  prog th !! pc th = Some a → exec i a (reg th) (mem st) = Some (sh, r) →
  step i st
  = {| workers := workers st;
       threads := <[i := {| prog := prog th; pc := S (pc th); reg := r |}]>
                    (threads st);
       mem := sh |}.
Proof. intros Hi Hm Ha He. unfold step. by rewrite Hi, Hm, Ha, He. Qed.

Lemma step_workers i st : workers (step i st) = workers st.
Proof.
  by destruct (step_cases i st) as [->|(th & a & sh & r & _ & _ & _ & ->)].
Qed.

Lemma run_workers sched st : workers (run sched st) = workers st.
Proof.
  revert st. induction sched as [|i sched IH]; intros st; [done|].
  by rewrite run_cons, IH, step_workers.
Qed.

Lemma step_pc_bound i st :
  Forall (λ th, pc th ≤ length (prog th)) (threads st) →
  Forall (λ th, pc th ≤ length (prog th)) (threads (step i st)).
Proof.
  intros H.
  destruct (step_cases i st) as [->|(th & a & sh & r & Hi & Ha & _ & ->)];
    [done|].
  cbn [threads]. apply Forall_insert; [done|]. simpl.
  by apply lookup_lt_Some in Ha.
Qed.

Lemma run_pc_bound sched st :
  Forall (λ th, pc th ≤ length (prog th)) (threads st) →
  Forall (λ th, pc th ≤ length (prog th)) (threads (run sched st)).
Proof.
  revert st. induction sched as [|i sched IH]; intros st H; [done|].
  rewrite run_cons. by apply IH, step_pc_bound.
Qed.

Lemma step_remaining i st th a sh r :
  threads st !! i = Some th → prog th !! pc th = Some a →
  remaining {| workers := workers st;
               threads := <[i := {| prog := prog th; pc := S (pc th);
                                    reg := r |}]> (threads st);
               mem := sh |}
  < remaining st.
Proof.
  intros Hi Ha. unfold remaining. cbn [threads].
  pose proof (sum_list_with_insert (λ th, length (prog th) - pc th) _ i th
                {| prog := prog th; pc := S (pc th); reg := r |} Hi) as E.
  apply lookup_lt_Some in Ha. simpl in E. lia.
Qed.

Lemma shape_holding q ms l n :
  shape q ms l → holds (take n l) = true →
  0 < n ∧ ∃ a, l !! n = Some a ∧ a ≠ Acquire.
Proof.
  intros [Hs|Hs|Hs] H; by_position n;
    (split; [lia|]); eexists; (split; [reflexivity|done]).
Qed.

Lemma shape_first q ms l a : shape q ms l → l !! 0 = Some a → a = Start.
Proof. intros [Hs|Hs|Hs] H; simpl in H; congruence. Qed.

Lemma exec_unless_locked i a r sh :
  a ≠ Acquire ∨ lock sh = None → is_Some (exec i a r sh).
Proof.
  intros [H|H]; destruct a; simpl; try done; try (by eexists).
  rewrite H. by eexists.
Qed.

(** The first unit that has not completed, with the units before it. *)
Lemma first_unfinished (l : list thread) :
  forallb thread_done l = false →
  ∃ l1 th l2, l = l1 ++ th :: l2
              ∧ Forall (λ t, thread_done t = true) l1
              ∧ thread_done th = false.
Proof.
  induction l as [|t l IH]; [done|]. simpl.
  destruct (thread_done t) eqn:E; simpl.
  - intros (l1 & th & l2 & -> & H1 & H2)%IH.
    exists (t :: l1), th, l2. repeat split; [by constructor|done].
  - intros _. by exists [], t, l.
Qed.

Lemma existsb_false_Forall {A} (f : A → bool) (l : list A) :
  existsb f l = false → Forall (λ x, f x = false) l.
Proof.
  induction l as [|x l IH]; [by constructor|]. simpl.
  intros [H1 H2]%orb_false_elim. constructor; [done|by apply IH].
Qed.

Lemma done_begun q ms t :
  shape q ms (prog t) → thread_done t = true → begun t = true.
Proof.
  unfold thread_done, begun. intros Hs H%Nat.eqb_eq.
  destruct (shape_counted _ _ _ Hs) as (_ & _ & _ & Hl & _).
  apply Nat.ltb_lt. lia.
Qed.

(** A pool that has not completed is never stuck: some unit can take a
    step. *)
Lemma progress re_search fs self paths st :
  inv re_search fs self paths st →
  Forall (λ th, pc th ≤ length (prog th)) (threads st) →
  (1 ≤ workers st)%Z → finished st = false →
  ∃ i, remaining (step i st) < remaining st.
Proof.
  intros Hinv Hpc Hw Hfin.
  destruct (lock (mem st)) as [i|] eqn:Hlk.
  - destruct (inv_holder _ _ _ _ _ Hinv i Hlk) as (th & Hi & Hh).
    destruct (unit_shape _ _ _ _ _ _ _ (inv_progs _ _ _ _ _ Hinv) Hi)
      as (q & _ & Hs).
    destruct (shape_holding _ _ _ _ Hs Hh) as (Hpos & a & Ha & Hna).
    destruct (exec_unless_locked i a (reg th) (mem st) (or_introl Hna))
      as [[sh r] He].
    assert (Hm : may_run i st th = true).
    { unfold may_run. by rewrite (proj2 (Nat.ltb_lt _ _) Hpos). }
    exists i. rewrite (step_taken _ _ _ _ _ _ Hi Hm Ha He).
    by eapply step_remaining.
  - destruct (existsb in_flight (threads st)) eqn:Ex.
    + apply existsb_exists in Ex as (th & Hin & Hfl).
      apply list_elem_of_In, list_elem_of_lookup_1 in Hin as [i Hi].
      unfold in_flight in Hfl. apply andb_prop in Hfl as [Hpos Hlt].
      apply Nat.ltb_lt in Hlt.
      destruct (lookup_lt_is_Some_2 _ _ Hlt) as [a Ha].
      destruct (exec_unless_locked i a (reg th) (mem st) (or_intror Hlk))
        as [[sh r] He].
      assert (Hm : may_run i st th = true).
      { unfold may_run. by rewrite Hpos. }
      exists i. rewrite (step_taken _ _ _ _ _ _ Hi Hm Ha He).
      by eapply step_remaining.
    + apply existsb_false_Forall in Ex.
      destruct (first_unfinished _ Hfin) as (l1 & th & l2 & El & Hdone & Hth).
      assert (Hi : threads st !! length l1 = Some th)
        by (rewrite El; by apply list_lookup_middle).
      assert (Hfl : in_flight th = false).
      { by apply (Forall_lookup_1 _ _ _ _ Ex Hi). }
      assert (Hle : pc th ≤ length (prog th)).
      { by apply (Forall_lookup_1 _ _ _ _ Hpc Hi). }
      unfold thread_done in Hth. apply Nat.eqb_neq in Hth.
      assert (Hz : pc th = 0).
      { unfold in_flight in Hfl. apply andb_false_iff in Hfl as [H|H].
        - apply Nat.ltb_ge in H. lia.
        - apply Nat.ltb_ge in H. lia. }
      assert (Hlt : pc th < length (prog th)) by lia.
      destruct (lookup_lt_is_Some_2 _ _ Hlt) as [a Ha].
      destruct (exec_unless_locked (length l1) a (reg th) (mem st)
                  (or_intror Hlk)) as [[sh r] He].
      assert (Hm : may_run (length l1) st th = true).
      { unfold may_run. rewrite Hz. cbn [Nat.ltb Nat.leb orb].
        apply andb_true_intro. split.
        - rewrite El, take_app_length.
          apply forallb_forall. intros t Ht%list_elem_of_In.
          assert (Hin : t ∈ threads st) by (rewrite El; set_solver).
          apply list_elem_of_lookup_1 in Hin as [j Hj].
          destruct (unit_shape _ _ _ _ _ _ _ (inv_progs _ _ _ _ _ Hinv) Hj)
            as (q & _ & Hs).
          eapply done_begun; [exact Hs|].
          by apply (proj1 (Forall_forall _ _) Hdone).
        - unfold busy. rewrite sum_list_with_zero.
          + apply Z.ltb_lt. lia.
          + eapply Forall_impl; [exact Ex|]. by intros t ->. }
      exists (length l1). rewrite (step_taken _ _ _ _ _ _ Hi Hm Ha He).
      by eapply step_remaining.
Qed.

Lemma completes_from re_search fs self paths n :
  ∀ st, remaining st ≤ n →
        inv re_search fs self paths st →
        Forall (λ th, pc th ≤ length (prog th)) (threads st) →
        (1 ≤ workers st)%Z →
        ∃ sched, finished (run sched st) = true.
Proof.
  induction n as [|n IH]; intros st Hn Hinv Hpc Hw;
    (destruct (finished st) eqn:Hfin; [by exists []|]);
    destruct (progress _ _ _ _ _ Hinv Hpc Hw Hfin) as [i Hi]; [lia|].
  destruct (IH (step i st)) as [sched Hs];
    [lia|by apply inv_step|by apply step_pc_bound
    |by rewrite step_workers|].
  by exists (i :: sched).
Qed.

Lemma submit_ready re_search fs self all_files :
  Forall (λ th, pc th ≤ length (prog th))
    (threads (submit re_search fs self all_files))
  ∧ (1 ≤ workers (submit re_search fs self all_files))%Z.
Proof.
  split.
  - unfold submit. cbn [threads]. apply Forall_fmap, Forall_true.
    intros q. simpl. lia.
  - unfold submit, effective_workers. cbn [workers]. lia.
Qed.

(** X1: whatever steps the scheduler has let the units take so far, the
    run can still be completed: the lock never leaves the pool stuck, and
    [search_directory] returns for the completed interleaving. *)
Theorem every_interleaving_completes
    (re_search : string → string → exn + bool) (fs : string → file)
    (self : FileSearcher) (all_files : list string) (sched : list nat) :
  ∃ rest sh,
    search_directory re_search fs self all_files (sched ++ rest) = Some sh.
Proof.
  destruct (submit_ready re_search fs self all_files) as [Hpc Hw].
  destruct (completes_from re_search fs self all_files _
              (run sched (submit re_search fs self all_files)) (le_n _))
    as [rest Hrest].
  - apply inv_run, inv_submit.
  - by apply run_pc_bound.
  - by rewrite run_workers.
  - exists rest. unfold search_directory.
    destruct all_files as [|q l]; [by eexists|].
    cbv zeta. rewrite run_app, Hrest. by eexists.
Qed.

(** X2: under every interleaving no two units are inside a
    [with self.lock:] block at the same time: while one unit is inside a
    block, every other unit is outside, and a unit that asks for the lock
    then does not move. *)
Theorem lock_excludes
    (re_search : string → string → exn + bool) (fs : string → file)
    (self : FileSearcher) (all_files : list string) (sched : list nat)
    (i j : nat) (thi thj : thread) :
  let st := run sched (submit re_search fs self all_files) in
  threads st !! i = Some thi → threads st !! j = Some thj →
  holds (done_of thi) = true → i ≠ j →
  holds (done_of thj) = false
  ∧ (prog thj !! pc thj = Some Acquire → step j st = st).
Proof.
  intros st Hi Hj Hhi Hne.
  assert (Hinv : inv re_search fs self all_files st)
    by apply inv_run, inv_submit.
  pose proof (inv_lock _ _ _ _ _ Hinv i thi Hi Hhi) as H1.
  split.
  - destruct (holds (done_of thj)) eqn:Hhj; [|done].
    pose proof (inv_lock _ _ _ _ _ Hinv j thj Hj Hhj) as H2. congruence.
  - intros Ha. unfold step. rewrite Hj, Ha. simpl. rewrite H1.
    by destruct (may_run j st thj).
Qed.

(** Unit 1 is inside its first block; unit 0, submitted before it, is at
    its [Acquire] and stays there. *)
Lemma lock_excludes_witness :
  let st := run [0; 1; 1; 1]
              (submit literal_search ex_world ex_self
                 ["a.json"; "notes.txt"]) in
  lock (mem st) = Some 1
  ∧ pc <$> threads st = [1; 3]
  ∧ step 0 st = st.
Proof.
  cbv zeta. split; [by vm_compute|]. split; [by vm_compute|].
  refine (proj2 (lock_excludes literal_search ex_world ex_self
                   ["a.json"; "notes.txt"] [0; 1; 1; 1] 1 0 _ _ _ _ _ _) _);
    by vm_compute.
Defined.

Lemma finished_matches re_search fs self paths st :
  inv re_search fs self paths st → finished st = true →
  matches_found (mem st)
  = sum_list_with (λ p, length (batch re_search fs self p)) paths.
Proof.
  intros Hi Hf.
  rewrite (inv_matches _ _ _ _ _ Hi), (sum_done_finished added _ Hf).
  rewrite (inv_progs _ _ _ _ _ Hi), sum_list_with_fmap'.
  apply sum_list_with_lookup_ext. intros _ q _. apply added_future.
Qed.

(** The JSON walk reads the term and the case rule of the searcher, and
    nothing else. *)
Lemma search_json_ext self1 self2 data fp :
  search_term self1 = search_term self2 →
  case_sensitive self1 = case_sensitive self2 →
  ∀ path, search_json self1 data fp path = search_json self2 data fp path.
Proof.
  intros Ht Hc.
  assert (Hin : ∀ x, term_in self1 x = term_in self2 x)
    by (intros x; unfold term_in; by rewrite Ht, Hc).
  assert (Hv : ∀ cp v, search_value self1 fp cp v = search_value self2 fp cp v).
  { intros cp v. unfold search_value. rewrite Ht.
    destruct v; try done. by rewrite Hin. }
  induction data as [|b|z|repr|s|l IH|kvs IH] using json_nested_ind;
    intros path; try done.
  - rewrite !search_json_arr. generalize 0.
    induction IH as [|item rest Hitem _ IHrest]; intros i; [done|].
    cbn [search_elems]. rewrite IHrest. f_equal.
    destruct item; try apply Hv; apply Hitem.
  - induction IH as [|[k v] rest Hv' _ IHrest]; [done|].
    rewrite !search_json_obj_cons, IHrest, Hin, Hv. simpl in Hv'.
    by rewrite Hv'.
Qed.

Lemma found_with_workers fs self w p :
  found fs (with_workers w self) p = found fs self p.
Proof.
  unfold found, search_file, outcome, bind, emit, ret.
  destruct (text (fs p)) as [e|f]; [done|]. simpl.
  change (scan_lines (with_workers w self) p f 1 [])
    with (scan_lines self p f 1 []).
  destruct (scan_lines self p f 1 []) as [ms [e|]]; [done|].
  destruct (Str.endswith (Str.lower p) ".json"); [|done].
  destruct (parsed (fs p)); try done. simpl.
  by rewrite (search_json_ext (with_workers w self) self).
Qed.

Lemma batch_with_workers re_search fs self w p :
  batch re_search fs (with_workers w self) p = batch re_search fs self p.
Proof.
  unfold batch. rewrite found_with_workers.
  by change (searchable re_search fs (with_workers w self) p)
       with (searchable re_search fs self p).
Qed.

Lemma searchable_with_workers re_search fs self w p :
  searchable re_search fs (with_workers w self) p
  = searchable re_search fs self p.
Proof. reflexivity. Qed.

(** X3: the state a completed run leaves does not depend on the
    interleaving nor on the configured worker count: any two completed runs
    over the same files end with the same [results], the same counters and
    the lock free. *)
Theorem completed_runs_agree
    (re_search : string → string → exn + bool) (fs : string → file)
    (self : FileSearcher) (all_files : list string) (w1 w2 : Z)
    (s1 s2 : list nat) (sh1 sh2 : shared) :
  search_directory re_search fs (with_workers w1 self) all_files s1
  = Some sh1 →
  search_directory re_search fs (with_workers w2 self) all_files s2
  = Some sh2 →
  sh1 = sh2.
Proof.
  intros (st1 & Hi1 & Hf1 & <-)%search_directory_Some
         (st2 & Hi2 & Hf2 & <-)%search_directory_Some.
  pose proof (finished_files _ _ _ _ _ Hi1 Hf1) as F1.
  pose proof (finished_files _ _ _ _ _ Hi2 Hf2) as F2.
  pose proof (finished_matches _ _ _ _ _ Hi1 Hf1) as M1.
  pose proof (finished_matches _ _ _ _ _ Hi2 Hf2) as M2.
  pose proof (finished_lock_free _ _ _ _ _ Hi1 Hf1) as L1.
  pose proof (finished_lock_free _ _ _ _ _ Hi2 Hf2) as L2.
  assert (R : results (mem st1) = results (mem st2)).
  { apply map_eq. intros p. apply option_eq. intros ms.
    rewrite (finished_results _ _ _ _ _ p ms Hi1 Hf1).
    rewrite (finished_results _ _ _ _ _ p ms Hi2 Hf2).
    by rewrite !batch_with_workers. }
  assert (F : files_processed (mem st1) = files_processed (mem st2))
    by (rewrite F1, F2; reflexivity).
  assert (M : matches_found (mem st1) = matches_found (mem st2)).
  { rewrite M1, M2. apply sum_list_with_lookup_ext. intros _ q _.
    by rewrite !batch_with_workers. }
  destruct (mem st1), (mem st2). simpl in *. congruence.
Qed.

Lemma completed_runs_agree_witness :
  mem (run (sequential 2)
         (submit literal_search ex_world (with_workers 1 ex_self)
            ["a.json"; "notes.txt"]))
  = mem (run [0; 1; 1; 1; 0; 1; 1; 1; 0; 0; 0; 0; 1; 0; 1; 0; 1; 1; 1; 0; 0; 0; 0]
           (submit literal_search ex_world (with_workers 8 ex_self)
              ["a.json"; "notes.txt"])).
Proof.
  refine (completed_runs_agree literal_search ex_world ex_self
            ["a.json"; "notes.txt"] 1 8 (sequential 2)
            [0; 1; 1; 1; 0; 1; 1; 1; 0; 0; 0; 0; 1; 0; 1; 0; 1; 1; 1; 0; 0; 0; 0]
            _ _ _ _);
    unfold search_directory; cbv zeta;
    match goal with
    | |- (if ?b then _ else _) = _ =>
        replace b with true by (by vm_compute)
    end; reflexivity.
Defined.

Lemma sum_list_with_le {A} (g h : A → nat) (l : list A) :
  (∀ x, g x ≤ h x) → sum_list_with g l ≤ sum_list_with h l.
Proof.
  intros H. induction l as [|x l IH]; [done|]. simpl. specialize (H x). lia.
Qed.

Lemma sum_take_le {A} (g : A → nat) n (l : list A) :
  sum_list_with g (take n l) ≤ sum_list_with g l.
Proof.
  revert n. induction l as [|x l IH]; intros [|n]; simpl; try lia.
  specialize (IH n). lia.
Qed.

(** X4: under every interleaving the two counters never go back and never
    overshoot: a step leaves [files_processed] and [matches_found] at least
    as large as they were, at most the number of searchable files and the
    number of matches of all batches. *)
Theorem counters_monotone_bounded
    (re_search : string → string → exn + bool) (fs : string → file)
    (self : FileSearcher) (all_files : list string) (sched : list nat)
    (i : nat) :
  let st := run sched (submit re_search fs self all_files) in
  let st' := run (sched ++ [i]) (submit re_search fs self all_files) in
  files_processed (mem st) ≤ files_processed (mem st')
  ∧ matches_found (mem st) ≤ matches_found (mem st')
  ∧ files_processed (mem st')
    ≤ length (filter (λ p, searchable re_search fs self p = true) all_files)
  ∧ matches_found (mem st')
    ≤ sum_list_with (λ p, length (batch re_search fs self p)) all_files.
Proof.
  intros st st'.
  assert (Hinv : inv re_search fs self all_files st)
    by apply inv_run, inv_submit.
  assert (Hinv' : inv re_search fs self all_files st')
    by apply inv_run, inv_submit.
  assert (Est : st' = step i st) by (unfold st', st; by rewrite run_app).
  split; [|split; [|split]].
  - rewrite (inv_files _ _ _ _ _ Hinv), (inv_files _ _ _ _ _ Hinv'), Est.
    destruct (step_cases i st) as [->|(th & a & sh & r & Hi & Ha & _ & ->)];
      [done|]. cbn [threads].
    pose proof (sum_list_with_insert (counted ∘ done_of) _ i th
                  {| prog := prog th; pc := S (pc th); reg := r |} Hi) as E.
    simpl in E. rewrite (done_of_step th a r Ha), counted_snoc in E. lia.
  - rewrite (inv_matches _ _ _ _ _ Hinv), (inv_matches _ _ _ _ _ Hinv'), Est.
    destruct (step_cases i st) as [->|(th & a & sh & r & Hi & Ha & _ & ->)];
      [done|]. cbn [threads].
    pose proof (sum_list_with_insert (added ∘ done_of) _ i th
                  {| prog := prog th; pc := S (pc th); reg := r |} Hi) as E.
    simpl in E. rewrite (done_of_step th a r Ha), added_snoc in E. lia.
  - rewrite (inv_files _ _ _ _ _ Hinv'), <- count_searchable.
    etransitivity.
    { apply (sum_list_with_le _ (counted ∘ prog)). intros th.
      apply sum_take_le. }
    rewrite <- sum_list_with_fmap', (inv_progs _ _ _ _ _ Hinv').
    rewrite sum_list_with_fmap'.
    apply Nat.eq_le_incl, sum_list_with_lookup_ext.
    intros _ q _. apply counted_future.
  - rewrite (inv_matches _ _ _ _ _ Hinv').
    etransitivity.
    { apply (sum_list_with_le _ (added ∘ prog)). intros th.
      apply sum_take_le. }
    rewrite <- sum_list_with_fmap', (inv_progs _ _ _ _ _ Hinv').
    rewrite sum_list_with_fmap'.
    apply Nat.eq_le_incl, sum_list_with_lookup_ext.
    intros _ q _. apply added_future.
Qed.

(** ** The records of [search_file] *)

Lemma found_spec fs self path :
  found fs self path
  = match text (fs path) with
    | inl _ => []
    | inr f =>
        line_records self path 1 (stream_lines f)
        ++ match stream_fault f with
           | Some _ => []
           | None => structured_pass fs self path
           end
    end.
Proof.
  unfold found, search_file, structured_pass, outcome, bind, emit, ret.
  destruct (text (fs path)) as [e|f]; [done|]. simpl.
  rewrite scan_lines_spec. cbn [app].
  destruct (stream_fault f); simpl; [by rewrite app_nil_r|].
  destruct (Str.endswith (Str.lower path) ".json"); simpl;
    [|by rewrite app_nil_r].
  by destruct (parsed (fs path)); simpl; rewrite ?app_nil_r.
Qed.

Lemma line_records_cons self path n l ls :
  line_records self path n (l :: ls)
  = (if term_in self l then [line_match path n l] else [])
    ++ line_records self path (S n) ls.
Proof.
  unfold line_records. cbn [imap concat]. rewrite Nat.add_0_r. f_equal.
  f_equal. apply imap_ext. intros i x _. simpl. by rewrite Nat.add_succ_r.
Qed.

Lemma line_records_shape self path n lines :
  Forall (λ r, file_path r = path ∧ json_path r = None ∧ n ≤ line_num r
               ∧ last_is_space (line r) = false)
    (line_records self path n lines)
  ∧ StronglySorted lt (line_num <$> line_records self path n lines).
Proof.
  revert n. induction lines as [|l ls IH]; intros n.
  - split; constructor.
  - rewrite line_records_cons. destruct (IH (S n)) as [IH1 IH2].
    assert (IH1' : Forall (λ r, file_path r = path ∧ json_path r = None
                               ∧ n ≤ line_num r
                               ∧ last_is_space (line r) = false)
                     (line_records self path (S n) ls)).
    { eapply Forall_impl; [exact IH1|]. intros r (? & ? & ? & ?).
      repeat split; (done || lia). }
    destruct (term_in self l); [|done]. split.
    + constructor; [|done]. repeat split; simpl; [lia|apply rstrip_clean].
    + cbn [app fmap list_fmap]. constructor; [done|].
      apply Forall_fmap. eapply Forall_impl; [exact IH1|].
      intros r (_ & _ & Hn & _). simpl. lia.
Qed.

(** X5: [search_file] never raises.  It returns the records of the line
    scan, one for each line read that holds the term, followed by those of
    the structured pass, which it runs when the lines were read to the end;
    when the file cannot be opened it returns none.  Each record carries the
    path of the file.  A record of the line scan has no structural path, a
    line number of at least 1 and a text that does not end in white space,
    and the line numbers increase strictly along the list; a record of the
    structured pass has line number 0 and a structural path that starts
    with "$". *)
Theorem search_file_records
    (fs : string → file) (self : FileSearcher) (path : string) :
  let scanned :=
    match text (fs path) with
    | inl _ => []
    | inr f => line_records self path 1 (stream_lines f)
    end in
  let structured :=
    match text (fs path) with
    | inl _ => []
    | inr f =>
        match stream_fault f with
        | Some _ => []
        | None => structured_pass fs self path
        end
    end in
  outcome (search_file fs self path) = inr (scanned ++ structured)
  ∧ Forall (λ r, file_path r = path ∧ json_path r = None
                 ∧ 1 ≤ line_num r ∧ last_is_space (line r) = false)
      scanned
  ∧ StronglySorted lt (line_num <$> scanned)
  ∧ Forall (λ r, file_path r = path ∧ line_num r = 0
                 ∧ ∃ p, json_path r = Some p
                        ∧ Str.startswith p "$" = true)
      structured.
Proof.
  cbv zeta. rewrite search_file_returns, found_spec.
  destruct (text (fs path)) as [e|f].
  { repeat split; constructor. }
  destruct (line_records_shape self path 1 (stream_lines f)) as [H1 H2].
  split; [reflexivity|]. split; [done|]. split; [done|].
  destruct (stream_fault f); [constructor|].
  unfold structured_pass.
  destruct (Str.endswith (Str.lower path) ".json"); [|constructor].
  destruct (parsed (fs path)); try constructor.
  apply Forall_forall. intros r Hr.
  apply search_json_under in Hr as (q & t & ->).
  repeat split. eexists. split; [reflexivity|]. apply startswith_append.
Qed.

(** X6: what [search_file] does with the JSON side of a file whose lines
    were read to the end.  A path that does not end in ".json", in any
    letter case, is opened once and never parsed.  For a path that does, the
    file is opened a second time; a document that does not parse is passed
    over without a message, any other exception of the load is printed, and
    in both cases the matches of the line scan are returned. *)
Theorem search_file_json_errors
    (fs : string → file) (self : FileSearcher) (path : string)
    (f : text_stream) :
  text (fs path) = inr f → stream_fault f = None →
  (Str.endswith (Str.lower path) ".json" = false →
   search_file fs self path
   = ([OpenText path], inr (line_records self path 1 (stream_lines f))))
  ∧ (Str.endswith (Str.lower path) ".json" = true →
     parsed (fs path) = JSONDecodeError →
     search_file fs self path
     = ([OpenText path; OpenText path],
        inr (line_records self path 1 (stream_lines f))))
  ∧ (∀ e, Str.endswith (Str.lower path) ".json" = true →
          parsed (fs path) = LoadFault e →
          search_file fs self path
          = ([OpenText path; OpenText path; Print (error_line path e)],
             inr (line_records self path 1 (stream_lines f)))).
Proof.
  intros Ht Hf. unfold search_file. rewrite Ht, scan_lines_spec, Hf.
  cbn [app]. split; [|split].
  - by intros ->.
  - by intros -> ->.
  - by intros e -> ->.
Qed.

Lemma search_file_json_errors_witness :
  search_file broken_json ex_self "Export.JSON"
  = ([OpenText "Export.JSON"; OpenText "Export.JSON"],
     inr [ {| line_num := 1; line := "{findme"; file_path := "Export.JSON";
              json_path := None |} ]).
Proof.
  exact (proj1 (proj2 (search_file_json_errors broken_json ex_self
                         "Export.JSON" (Line "{findme" Eof)
                         eq_refl eq_refl)) eq_refl eq_refl).
Defined.

(** ** The case rule and the empty term *)

Lemma term_in_case_insensitive self x :
  term_in (with_case true self) x = true →
  term_in (with_case false self) x = true.
Proof.
  unfold term_in. cbn [case_sensitive search_term with_case andb negb orb].
  rewrite !orb_false_r. apply contains_lower.
Qed.

Lemma sublist_if {A} (a b : bool) (r : A) :
  (a = true → b = true) →
  (if a then [r] else []) `sublist_of` (if b then [r] else []).
Proof.
  intros H. destruct a; [by rewrite H|]. apply sublist_nil_l.
Qed.

Lemma search_value_case self fp cp v :
  search_value (with_case true self) fp cp v
  `sublist_of` search_value (with_case false self) fp cp v.
Proof.
  destruct v; try done. cbn [search_value py_str].
  change (search_term (with_case true self)) with (search_term self).
  change (search_term (with_case false self)) with (search_term self).
  destruct (term_in (with_case true self) s) eqn:E.
  - by rewrite (term_in_case_insensitive _ _ E).
  - pose proof (term_in_false_contains _ _ E) as E'.
    change (search_term (with_case true self)) with (search_term self) in E'.
    rewrite E'. apply sublist_nil_l.
Qed.

Lemma search_json_case self fp data :
  ∀ path, search_json (with_case true self) data fp path
          `sublist_of` search_json (with_case false self) data fp path.
Proof.
  induction data as [|b|z|repr|s|l IH|kvs IH] using json_nested_ind;
    intros path; try done.
  - rewrite !search_json_arr. generalize 0.
    induction IH as [|item rest Hitem _ IHrest]; intros i; [done|].
    cbn [search_elems]. apply sublist_app; [|apply IHrest].
    destruct item; try apply search_value_case; apply Hitem.
  - induction IH as [|[k v] rest Hv _ IHrest]; [done|].
    rewrite !search_json_obj_cons.
    apply sublist_app; [|apply sublist_app; [|apply IHrest]].
    + apply sublist_if, term_in_case_insensitive.
    + simpl in Hv. destruct v; try apply search_value_case; apply Hv.
Qed.

Lemma line_records_case self path n lines :
  line_records (with_case true self) path n lines
  `sublist_of` line_records (with_case false self) path n lines.
Proof.
  revert n. induction lines as [|l ls IH]; intros n; [done|].
  rewrite !line_records_cons. apply sublist_app; [|apply IH].
  apply sublist_if, term_in_case_insensitive.
Qed.

(** X7: a search under the case-insensitive rule loses nothing: for every
    file, the records [search_file] returns under the case-sensitive rule
    are, in the same order, among those it returns under the
    case-insensitive rule. *)
Theorem case_insensitive_finds_more
    (fs : string → file) (self : FileSearcher) (path : string) :
  found fs (with_case true self) path
  `sublist_of` found fs (with_case false self) path.
Proof.
  rewrite !found_spec. destruct (text (fs path)) as [e|f]; [done|].
  apply sublist_app; [apply line_records_case|].
  destruct (stream_fault f); [done|]. unfold structured_pass.
  destruct (Str.endswith (Str.lower path) ".json"); [|done].
  destruct (parsed (fs path)); try done. apply search_json_case.
Qed.












(** ** The classifier *)

Lemma any_search_true re_search patterns path :
  any_search re_search patterns path = inr true
  ↔ ∃ pre p post,
      patterns = pre ++ p :: post
      ∧ Forall (λ q, re_search q path = inr false) pre
      ∧ re_search p path = inr true.
Proof.
  induction patterns as [|p0 ps IH]; simpl.
  - split; [done|]. by intros ([|? ?] & ? & ? & ? & _).
  - destruct (re_search p0 path) as [e|[|]] eqn:E.
    + split; [done|]. intros ([|q pre] & p & post & Heq & Hpre & Hp);
        simplify_eq/=; [congruence|].
      apply Forall_cons_1 in Hpre as [? _]. congruence.
    + split; [|done]. intros _. by exists [], p0, ps.
    + rewrite IH. split.
      * intros (pre & p & post & -> & Hpre & Hp).
        exists (p0 :: pre), p, post. by repeat constructor.
      * intros ([|q pre] & p & post & Heq & Hpre & Hp); simplify_eq/=;
          [congruence|].
        apply Forall_cons_1 in Hpre as [_ Hpre]. by exists pre, p, post.
Qed.

Lemma any_search_raises re_search patterns path e :
  any_search re_search patterns path = inl e
  ↔ ∃ pre p post,
      patterns = pre ++ p :: post
      ∧ Forall (λ q, re_search q path = inr false) pre
      ∧ re_search p path = inl e.
Proof.
  induction patterns as [|p0 ps IH]; simpl.
  - split; [done|]. by intros ([|? ?] & ? & ? & ? & _).
  - destruct (re_search p0 path) as [e0|[|]] eqn:E.
    + split.
      * intros [= ->]. by exists [], p0, ps.
      * intros ([|q pre] & p & post & Heq & Hpre & Hp); simplify_eq/=;
          [congruence|].
        apply Forall_cons_1 in Hpre as [? _]. congruence.
    + split; [done|]. intros ([|q pre] & p & post & Heq & Hpre & Hp);
        simplify_eq/=; [congruence|].
      apply Forall_cons_1 in Hpre as [? _]. congruence.
    + rewrite IH. split.
      * intros (pre & p & post & -> & Hpre & Hp).
        exists (p0 :: pre), p, post. by repeat constructor.
      * intros ([|q pre] & p & post & Heq & Hpre & Hp); simplify_eq/=;
          [congruence|].
        apply Forall_cons_1 in Hpre as [_ Hpre]. by exists pre, p, post.
Qed.

Lemma any_search_false re_search patterns path :
  any_search re_search patterns path = inr false
  ↔ Forall (λ q, re_search q path = inr false) patterns.
Proof.
  induction patterns as [|p0 ps IH]; simpl.
  - split; [by constructor|done].
  - destruct (re_search p0 path) as [e|[|]] eqn:E.
    + split; [done|]. intros [? _]%Forall_cons_1. congruence.
    + split; [done|]. intros [? _]%Forall_cons_1. congruence.
    + rewrite IH. split; [by constructor|]. by intros [_ ?]%Forall_cons_1.
Qed.

(** X10: [is_excluded] tries the patterns in the order of the list and the
    first one that matches or is ill-formed decides: the path is excluded
    exactly when some pattern matches it and no pattern before that one
    matches or raises; the call raises exactly when some pattern raises
    and no pattern before it matches or raises; the path is kept exactly
    when every pattern is well-formed and none matches.  So an ill-formed
    pattern behind a matching one goes unnoticed, and with no pattern at
    all no path is excluded. *)
Theorem is_excluded_first_pattern_decides
    (re_search : string → string → exn + bool) (self : FileSearcher)
    (path : string) :
  (is_excluded re_search self path = inr true
   ↔ ∃ pre p post,
       exclude_patterns self = pre ++ p :: post
       ∧ Forall (λ q, re_search q path = inr false) pre
       ∧ re_search p path = inr true)
  ∧ (∀ e, is_excluded re_search self path = inl e
          ↔ ∃ pre p post,
              exclude_patterns self = pre ++ p :: post
              ∧ Forall (λ q, re_search q path = inr false) pre
              ∧ re_search p path = inl e)
  ∧ (is_excluded re_search self path = inr false
     ↔ Forall (λ q, re_search q path = inr false) (exclude_patterns self))
  ∧ (exclude_patterns self = [] →
     is_excluded re_search self path = inr false).
Proof.
  unfold is_excluded. split; [apply any_search_true|].
  split; [intros e; apply any_search_raises|].
  split; [apply any_search_false|]. by intros ->.
Qed.

Lemma contains_NUL s :
  Str.contains NUL s = true ↔ ∃ k, String.get k s = Some zero.
Proof.
  induction s as [|c s IH].
  - split; [done|]. by intros [k ?].
  - rewrite contains_cons. unfold NUL at 1.
    change (Str.startswith (String c s) (String zero EmptyString))
      with (Ascii.eqb c zero && true).
    rewrite andb_true_r, orb_true_iff, IH, Ascii.eqb_eq. split.
    + intros [->|[k Hk]]; [by exists 0|by exists (S k)].
    + intros [[|k] Hk]; simpl in Hk; [left; congruence|right; by exists k].
Qed.

Lemma get_substring_prefix n s k :
  String.get k (String.substring 0 n s)
  = if k <? n then String.get k s else None.
Proof.
  revert s k. induction n as [|n IH]; intros s k.
  - by destruct s.
  - destruct s as [|c s]; [by destruct (k <? S n)|].
    destruct k as [|k]; [done|].
    change (String.get (S k) (String.substring 0 (S n) (String c s)))
      with (String.get k (String.substring 0 n s)).
    rewrite IH. by change (S k <? S n) with (k <? n).
Qed.

(** X11: [is_binary_file] opens the path once and looks at its first 1024
    bytes only: a readable file is binary exactly when one of the bytes at
    offsets 0 to 1023 is NUL, whatever follows them, and a file that cannot
    be read is binary. *)
Theorem is_binary_file_first_kilobyte (fs : string → file) (path : string) :
  trace (is_binary_file fs path) = [OpenBinary path]
  ∧ (∀ e, content (fs path) = inl e →
          outcome (is_binary_file fs path) = inr true)
  ∧ (∀ bytes, content (fs path) = inr bytes →
       ∃ b, outcome (is_binary_file fs path) = inr b
            ∧ (b = true
               ↔ ∃ k, k < 1024 ∧ String.get k bytes = Some zero)).
Proof.
  unfold is_binary_file, trace, outcome, bind, emit, ret.
  destruct (content (fs path)) as [e|bytes]; simpl.
  - split; [done|]. split; [done|]. by intros.
  - split; [done|]. split; [by intros|]. intros ? [= <-].
    eexists. split; [reflexivity|]. rewrite contains_NUL. split.
    + intros [k Hk]. rewrite get_substring_prefix in Hk.
      destruct (k <? 1024) eqn:E; [|done].
      apply Nat.ltb_lt in E. by exists k.
    + intros (k & Hlt & Hk). exists k. rewrite get_substring_prefix.
      by rewrite (proj2 (Nat.ltb_lt _ _) Hlt).
Qed.

Lemma lower_char_idem c :
  Str.lower_char (Str.lower_char c) = Str.lower_char c.
Proof. by destruct c as [[] [] [] [] [] [] [] []]. Qed.

Lemma lower_idem s : Str.lower (Str.lower s) = Str.lower s.
Proof.
  induction s as [|c s IH]; [done|]. simpl. by rewrite lower_char_idem, IH.
Qed.

Lemma endswith_cons c s t :
  Str.endswith (String c s) t = String.eqb (String c s) t || Str.endswith s t.
Proof. reflexivity. Qed.

Lemma endswith_refl s : Str.endswith s s = true.
Proof.
  destruct s as [|c s]; [done|]. by rewrite endswith_cons, String.eqb_refl.
Qed.

Lemma endswith_empty s : Str.endswith s EmptyString = true.
Proof.
  induction s as [|c s IH]; [done|]. rewrite endswith_cons, IH.
  apply orb_true_r.
Qed.

Lemma substring_all s : String.substring 0 (String.length s) s = s.
Proof. induction s as [|c s IH]; [done|]. simpl. by rewrite IH. Qed.

Lemma endswith_substring s n :
  Str.endswith s (String.substring n (String.length s - n) s) = true.
Proof.
  revert n. induction s as [|c s IH]; intros n.
  - by destruct n.
  - destruct n as [|n].
    + rewrite Nat.sub_0_r, substring_all. apply endswith_refl.
    + rewrite endswith_cons.
      change (String.substring (S n) (String.length (String c s) - S n)
                (String c s))
        with (String.substring n (String.length s - n) s).
      rewrite IH. apply orb_true_r.
Qed.

Lemma rfind_from_ge c s i last :
  (-1 ≤ last)%Z → (0 ≤ i)%Z → (-1 ≤ Str.rfind_from c s i last)%Z.
Proof.
  revert i last. induction s as [|a s IH]; intros i last Hl Hi; [done|].
  simpl. apply IH; [|lia]. destruct (Ascii.eqb a c); lia.
Qed.

(** The extension [splitext] gives is the end of the path. *)
Lemma splitext_suffix p : Str.endswith p (Str.splitext p).2 = true.
Proof.
  unfold Str.splitext.
  pose proof (rfind_from_ge "/" p 0 (-1) ltac:(lia) ltac:(lia)) as Hsep.
  fold (Str.rfind "/" p) in Hsep.
  destruct ((Str.rfind "." p >? Str.rfind "/" p)%Z
            && negb (Str.all_dots
                       (Str.slice p (Str.rfind "/" p + 1) (Str.rfind "." p))))
    eqn:E; [|apply endswith_empty].
  apply andb_prop in E as [E _]. apply Z.gtb_lt in E.
  cbn [snd]. unfold Str.slice, Str.len.
  replace (Z.to_nat (Z.of_nat (String.length p) - Str.rfind "." p))
    with (String.length p - Z.to_nat (Str.rfind "." p)) by lia.
  apply endswith_substring.
Qed.

(** X12: with a non-empty extension list, a file is searchable only when
    the extension [splitext] cuts from the end of its path, lowered, is an
    entry of the list; such an entry has no capital letter.  The entries are
    compared as they were given, so a list whose every entry has a capital
    letter admits no file at all. *)
Theorem searchable_extension_is_lowercase
    (re_search : string → string → exn + bool) (fs : string → file)
    (self : FileSearcher) (path : string) :
  file_extensions self ≠ [] →
  (searchable re_search fs self path = true →
   ∃ e, e ∈ file_extensions self
        ∧ e = Str.lower (Str.splitext path).2
        ∧ Str.lower e = e
        ∧ Str.endswith path (Str.splitext path).2 = true)
  ∧ (Forall (λ e, Str.lower e ≠ e) (file_extensions self) →
     searchable re_search fs self path = false).
Proof.
  intros Hne.
  assert (H : searchable re_search fs self path = true →
              ∃ e, e ∈ file_extensions self
                   ∧ e = Str.lower (Str.splitext path).2
                   ∧ Str.lower e = e
                   ∧ Str.endswith path (Str.splitext path).2 = true).
  { intros (_ & _ & Hext)%searchable_iff. unfold extension_ok in Hext.
    destruct (file_extensions self) as [|e0 es] eqn:E; [done|].
    apply bool_decide_eq_true in Hext.
    exists (Str.lower (Str.splitext path).2).
    split; [done|]. split; [done|]. split; [apply lower_idem|].
    apply splitext_suffix. }
  split; [done|]. intros Hall.
  destruct (searchable re_search fs self path) eqn:E; [|done].
  destruct (H eq_refl) as (e & Hin & _ & Hlow & _).
  by apply (proj1 (Forall_forall _ _) Hall) in Hin.
Qed.

Lemma searchable_extension_is_lowercase_witness :
  searchable literal_search ex_world
    (init "findme" "." None 4 (Some [".TXT"]) false) "notes.txt" = false.
Proof.
  refine (proj2 (searchable_extension_is_lowercase literal_search ex_world
                   (init "findme" "." None 4 (Some [".TXT"]) false)
                   "notes.txt" _) _).
  - discriminate.
  - by repeat constructor.
Defined.

(** ** The answers at the prompts *)

Example interactive_cli_example :
  interactive_cli 4300 ex_answers
  = inr {| search_term := "findme"; directory := ".";
           exclude_patterns := ["node_modules"; EmptyString];
           max_workers := 7;
           file_extensions := [".txt"; ".JSON"];
           case_sensitive := true |}.
Proof. reflexivity. Qed.

Example py_int_examples :
  py_int 0 " -1_000 " = inr (-1000)%Z
  ∧ py_int 0 "1__0" = inl ValueError
  ∧ py_int 0 "+" = inl ValueError
  ∧ py_int 0 "12a" = inl ValueError
  ∧ py_int 3 "1234" = inl ValueError
  ∧ py_int 0 (String (ascii_of_nat 160) "7") = inr 7%Z
  ∧ py_int 0 (String (ascii_of_nat 28) "7") = inl ValueError.
Proof. by vm_compute. Qed.

Lemma is_decimal_facts c :
  is_decimal c = true →
  is_digit c = true ∧ Str.is_space c = false
  ∧ Ascii.eqb c "_" = false ∧ Ascii.eqb c "-" = false
  ∧ Ascii.eqb c "+" = false
  ∧ ∀ d, ∃ d', uint_of_char c (Some d) = Some d'.
Proof.
  destruct c as [[] [] [] [] [] [] [] []]; try discriminate; intros _;
    repeat split; intros d; by eexists.
Qed.

Lemma uint_of_char_decimal c o d :
  uint_of_char c o = Some d → is_decimal c = true.
Proof.
  destruct o as [d0|]; [|done].
  by destruct c as [[] [] [] [] [] [] [] []].
Qed.

Lemma uint_of_string_decimal t :
  all_decimal t = true ↔ ∃ d, NilEmpty.uint_of_string t = Some d.
Proof.
  induction t as [|c t IH]; simpl.
  - split; [by eexists|done].
  - rewrite andb_true_iff, IH. split.
    + intros [Hc [d ->]].
      destruct (is_decimal_facts c Hc) as (_ & _ & _ & _ & _ & H). apply H.
    + intros [d Hd]. split; [by eapply uint_of_char_decimal|].
      destruct (NilEmpty.uint_of_string t) as [d0|]; [by eexists|].
      by destruct c as [[] [] [] [] [] [] [] []].
Qed.

Lemma all_decimal_digits t : all_decimal t = true → all_digits t = true.
Proof.
  induction t as [|c t IH]; [done|]. simpl.
  intros [Hc Ht]%andb_prop.
  destruct (is_decimal_facts c Hc) as (-> & _). by rewrite IH.
Qed.

Lemma all_decimal_strip t : all_decimal t = true → strip t = t.
Proof.
  intros H. unfold strip.
  assert (lstrip t = t) as ->.
  { destruct t as [|c t]; [done|]. simpl in *. apply andb_prop in H as [Hc _].
    by destruct (is_decimal_facts c Hc) as (_ & -> & _). }
  apply rstrip_no_trailing_space.
  induction t as [|c t IH]; [done|]. simpl in H.
  apply andb_prop in H as [Hc Ht].
  destruct t as [|c' t'].
  - simpl. by destruct (is_decimal_facts c Hc) as (_ & -> & _).
  - by apply IH.
Qed.

Lemma all_decimal_underscores t b :
  all_decimal t = true → drop_underscores b t = Some t.
Proof.
  revert b. induction t as [|c t IH]; intros b; [done|]. simpl.
  intros [Hc Ht]%andb_prop.
  destruct (is_decimal_facts c Hc) as (_ & _ & -> & _).
  by rewrite IH.
Qed.

(** *** Stripping *)

Lemma lstrip_by_is_space s : lstrip s = lstrip_by Str.is_space s.
Proof. induction s as [|c s IH]; [done|]. simpl. by rewrite IH. Qed.

Lemma rstrip_by_is_space s : Str.rstrip s = rstrip_by Str.is_space s.
Proof.
  induction s as [|c s IH]; [done|]. rewrite rstrip_cons, IH. reflexivity.
Qed.

Section StripFacts.

Variable space : ascii → bool.

Lemma rstrip_by_cons c s :
  rstrip_by space (String c s)
  = match rstrip_by space s with
    | EmptyString => if space c then EmptyString else String c EmptyString
    | r => String c r
    end.
Proof. reflexivity. Qed.

Lemma chars_lstrip_by c s :
  In c (chars (lstrip_by space s)) → In c (chars s).
Proof.
  induction s as [|a s IH]; [done|]. simpl.
  destruct (space a); [|done]. intros H. right. by apply IH.
Qed.

Lemma chars_rstrip_by c s :
  In c (chars (rstrip_by space s)) → In c (chars s).
Proof.
  induction s as [|a s IH]; [done|]. rewrite rstrip_by_cons.
  change (chars (String a s)) with (a :: chars s).
  destruct (rstrip_by space s) as [|b r].
  - destruct (space a); [done|]. intros [H|[]]. by left.
  - intros [H|H]; [by left|right]. by apply IH.
Qed.

Lemma keep_lstrip_by c s :
  In c (chars s) → space c = false → In c (chars (lstrip_by space s)).
Proof.
  intros Hin Hc. induction s as [|a s IH]; [done|]. simpl.
  destruct (space a) eqn:Ea; [|done].
  destruct Hin as [->|Hin]; [congruence|]. by apply IH.
Qed.

Lemma keep_rstrip_by c s :
  In c (chars s) → space c = false → In c (chars (rstrip_by space s)).
Proof.
  intros Hin Hc. induction s as [|a s IH]; [done|]. rewrite rstrip_by_cons.
  destruct Hin as [->|Hin].
  - destruct (rstrip_by space s); [rewrite Hc|]; by left.
  - specialize (IH Hin). destruct (rstrip_by space s) as [|b r]; [done|].
    by right.
Qed.

End StripFacts.

(** Where two notions of white space agree on the characters of a text,
    they strip it alike. *)
Lemma lstrip_by_agree sp1 sp2 s :
  (∀ c, In c (chars s) → sp1 c = sp2 c) →
  lstrip_by sp1 s = lstrip_by sp2 s.
Proof.
  induction s as [|a s IH]; intros H; [done|]. simpl.
  rewrite (H a) by (by left). rewrite IH; [done|].
  intros c Hc. apply H. by right.
Qed.

Lemma rstrip_by_agree sp1 sp2 s :
  (∀ c, In c (chars s) → sp1 c = sp2 c) →
  rstrip_by sp1 s = rstrip_by sp2 s.
Proof.
  induction s as [|a s IH]; intros H; [done|]. rewrite !rstrip_by_cons.
  rewrite (H a) by (by left). rewrite IH; [done|].
  intros c Hc. apply H. by right.
Qed.

Lemma int_strip_agree s :
  (∀ c, In c (chars s) → int_space c = Str.is_space c) →
  int_strip s = strip s.
Proof.
  intros H. unfold int_strip, strip.
  rewrite rstrip_by_is_space, lstrip_by_is_space.
  rewrite (lstrip_by_agree int_space Str.is_space s H).
  apply rstrip_by_agree. intros c Hc. apply H. by apply chars_lstrip_by in Hc.
Qed.

Lemma chars_strip_or c s :
  In c (chars s) → Str.is_space c = true ∨ In c (chars (strip s)).
Proof.
  intros Hin. destruct (Str.is_space c) eqn:Hc; [by left|right].
  unfold strip. rewrite rstrip_by_is_space, lstrip_by_is_space.
  apply keep_rstrip_by; [by apply keep_lstrip_by|done].
Qed.

Lemma chars_int_strip c s :
  In c (chars s) → int_space c = false → In c (chars (int_strip s)).
Proof.
  intros Hin Hc. apply keep_rstrip_by; [by apply keep_lstrip_by|done].
Qed.

Lemma all_decimal_chars t c :
  all_decimal t = true → In c (chars t) → is_decimal c = true.
Proof.
  induction t as [|a t IH]; [done|]. simpl.
  intros [Ha Ht]%andb_prop [->|Hin]; [done|by apply IH].
Qed.

Lemma all_digits_chars t c :
  all_digits t = true → In c (chars t) → is_digit c = true.
Proof.
  induction t as [|a t IH]; [done|]. simpl.
  intros [Ha Ht]%andb_prop [->|Hin]; [done|by apply IH].
Qed.

Lemma chars_all_decimal t :
  (∀ c, In c (chars t) → is_decimal c = true) → all_decimal t = true.
Proof.
  induction t as [|a t IH]; intros H; [done|]. simpl.
  rewrite (H a) by (by left). apply IH. intros c Hc. apply H. by right.
Qed.

Lemma all_decimal_int_strip t : all_decimal t = true → int_strip t = t.
Proof.
  intros H. rewrite int_strip_agree; [by apply all_decimal_strip|].
  intros c Hc. apply (all_decimal_chars _ _ H) in Hc.
  by destruct c as [[] [] [] [] [] [] [] []].
Qed.

(** *** [int] *)

(** [int] on a numeral of decimal digits. *)
Lemma py_int_decimal m c t d :
  NilEmpty.uint_of_string (String c t) = Some d →
  m = 0 ∨ String.length (String c t) ≤ m →
  py_int m (String c t) = inr (Z.of_nat (Nat.of_uint d)).
Proof.
  intros Hd Hm.
  assert (Hall : all_decimal (String c t) = true)
    by (apply uint_of_string_decimal; by eexists).
  unfold py_int. rewrite (all_decimal_int_strip _ Hall).
  pose proof Hall as Hall'. simpl in Hall'.
  apply andb_prop in Hall' as [Hc _].
  destruct (is_decimal_facts c Hc) as (_ & _ & _ & -> & -> & _).
  rewrite (all_decimal_underscores _ _ Hall), Hd.
  destruct Hm as [->|Hm]; [done|].
  by rewrite (proj2 (Nat.ltb_ge _ _) Hm), andb_false_r.
Qed.

(** [int] on a numeral of more decimal digits than the limit allows. *)
Lemma py_int_too_long m c t :
  all_decimal (String c t) = true →
  0 < m < String.length (String c t) →
  py_int m (String c t) = inl ValueError.
Proof.
  intros Hall [Hm1 Hm2]. unfold py_int.
  rewrite (all_decimal_int_strip _ Hall).
  pose proof Hall as Hall'. simpl in Hall'.
  apply andb_prop in Hall' as [Hc _].
  destruct (is_decimal_facts c Hc) as (_ & _ & _ & -> & -> & _).
  rewrite (all_decimal_underscores _ _ Hall).
  destruct (proj1 (uint_of_string_decimal _) Hall) as [d ->].
  by rewrite (proj2 (Nat.ltb_lt _ _) Hm1), (proj2 (Nat.ltb_lt _ _) Hm2).
Qed.

Lemma drop_underscores_keeps b s ds c :
  drop_underscores b s = Some ds → In c (chars s) →
  Ascii.eqb c "_" = false → In c (chars ds).
Proof.
  revert b ds. induction s as [|a s IH]; intros b ds H Hin Hc; [done|].
  simpl in H. destruct (Ascii.eqb a "_") eqn:Ea.
  - destruct Hin as [->|Hin]; [congruence|].
    destruct s as [|a' s']; [done|]. destruct b; [|done]. by eapply IH.
  - destruct (drop_underscores true s) as [ds'|] eqn:E; [|done].
    injection H as <-. destruct Hin as [->|Hin]; [by left|right].
    by eapply IH.
Qed.

(** [int] raises as soon as the text between the white space it skips
    holds a character that is no decimal digit, no underscore and no
    sign. *)
Lemma py_int_bad m s c :
  In c (chars (int_strip s)) → is_decimal c = false →
  Ascii.eqb c "_" = false → Ascii.eqb c "-" = false →
  Ascii.eqb c "+" = false →
  py_int m s = inl ValueError.
Proof.
  intros Hin Hd Hu Hm Hp. unfold py_int.
  set (t := int_strip s) in *.
  set (nb := match t with
             | String a r =>
                 if Ascii.eqb a "-" then (true, r)
                 else if Ascii.eqb a "+" then (false, r) else (false, t)
             | EmptyString => (false, t)
             end).
  assert (Hbody : In c (chars nb.2)).
  { unfold nb. destruct t as [|a r]; [done|].
    destruct (Ascii.eqb a "-") eqn:E1.
    - apply Ascii.eqb_eq in E1. subst a.
      destruct Hin as [<-|Hin]; [done|exact Hin].
    - destruct (Ascii.eqb a "+") eqn:E2; [|exact Hin].
      apply Ascii.eqb_eq in E2. subst a.
      destruct Hin as [<-|Hin]; [done|exact Hin]. }
  destruct nb as [negative body]. simpl in Hbody.
  destruct (drop_underscores false body) as [ds|] eqn:E; [|done].
  pose proof (drop_underscores_keeps _ _ _ _ E Hbody Hu) as Hds.
  destruct ds as [|c0 ds0]; [done|].
  destruct (NilEmpty.uint_of_string (String c0 ds0)) as [d|] eqn:Ed; [|done].
  assert (Hall : all_decimal (String c0 ds0) = true)
    by (apply uint_of_string_decimal; by eexists).
  rewrite (all_decimal_chars _ _ Hall Hds) in Hd. done.
Qed.

Lemma strip_idem s : strip (strip s) = strip s.
Proof.
  unfold strip.
  assert (Hr : lstrip (Str.rstrip (lstrip s)) = Str.rstrip (lstrip s)).
  { destruct (lstrip s) as [|c u] eqn:E; [done|].
    assert (Hc : Str.is_space c = false).
    { clear -E. induction s as [|a t IH]; [done|]. simpl in E.
      destruct (Str.is_space a) eqn:Ea; [by apply IH|]. congruence. }
    rewrite rstrip_cons.
    destruct (Str.rstrip u); rewrite ?Hc; simpl; by rewrite Hc. }
  rewrite Hr. apply rstrip_no_trailing_space, rstrip_clean.
Qed.

Lemma of_nat_parses n :
  ∃ c t d, Str.of_nat n = String c t
           ∧ NilEmpty.uint_of_string (String c t) = Some d
           ∧ Nat.of_uint d = n.
Proof.
  unfold Str.of_nat. pose proof (Unsigned.of_to n) as Hn.
  destruct (Nat.to_uint n) as [|d|d|d|d|d|d|d|d|d|d] eqn:E;
    [by exists "0"%char, EmptyString, (Decimal.D0 Decimal.Nil)|..];
    (eexists _, _, _; split; [reflexivity|]; split; [|exact Hn]);
    match goal with
    | |- NilEmpty.uint_of_string ?s = Some ?d =>
        change s with (NilEmpty.string_of_uint d)
    end; apply NilEmpty.usu.
Qed.

(** The characters of an answer that passes the [isdigit] test are digits
    and white space. *)
Lemma isdigit_chars input c :
  isdigit (strip input) = true → In c (chars input) →
  Str.is_space c = true ∨ is_digit c = true.
Proof.
  intros Hd Hin. destruct (chars_strip_or _ _ Hin) as [H|H]; [by left|right].
  apply (all_digits_chars (strip input)); [|done].
  unfold isdigit in Hd. by destruct (strip input).
Qed.

(** X13: the answer at the thread prompt.  The decimal numeral of [n]
    gives max(1, n) workers, so "0" gives one.  An answer that is blank or
    holds anything but digits between its white space gives 1000.  An
    answer that passes this test and consists of decimal digits and of the
    white space [int] skips is read as its numeral; if the numeral has more
    digits than the limit of [int] allows, [int] raises.  An answer that
    passes the test and holds another character, a superscript digit or one
    of the separators FS to US, which [isdigit] and [strip] accept and [int]
    does not, raises as well.  A worker count that is returned is at
    least 1. *)
Theorem cli_max_workers_cases (m : nat) :
  (∀ n, m = 0 ∨ String.length (Str.of_nat n) ≤ m →
        cli_max_workers m (Str.of_nat n) = inr (Z.max 1 (Z.of_nat n)))
  ∧ (∀ input, isdigit (strip input) = false →
              cli_max_workers m input = inr 1000%Z)
  ∧ (∀ input,
       isdigit (strip input) = true →
       (∀ c, In c (chars input) → is_decimal c = true ∨ int_space c = true) →
       ∃ d, NilEmpty.uint_of_string (strip input) = Some d
            ∧ cli_max_workers m input
              = if (0 <? m) && (m <? String.length (strip input))
                then inl ValueError
                else inr (Z.max 1 (Z.of_nat (Nat.of_uint d))))
  ∧ (∀ input c,
       isdigit (strip input) = true →
       In c (chars input) → is_decimal c = false → int_space c = false →
       cli_max_workers m input = inl ValueError)
  ∧ (∀ input w, cli_max_workers m input = inr w → (1 ≤ w)%Z).
Proof.
  split; [|split; [|split; [|split]]].
  - intros n Hm. destruct (of_nat_parses n) as (c & t & d & E & Hd & Hn).
    rewrite E in *. unfold cli_max_workers.
    assert (Hall : all_decimal (String c t) = true)
      by (apply uint_of_string_decimal; by eexists).
    rewrite (all_decimal_strip _ Hall).
    change (isdigit (String c t)) with (all_digits (String c t)).
    rewrite (all_decimal_digits _ Hall), (py_int_decimal m c t d Hd Hm).
    by rewrite Hn.
  - intros input H. unfold cli_max_workers. by rewrite H.
  - intros input Hd Hcs.
    assert (Hagree : int_strip input = strip input).
    { apply int_strip_agree. intros c Hc.
      destruct (Hcs c Hc) as [H|H];
        by destruct c as [[] [] [] [] [] [] [] []]. }
    assert (Hall : all_decimal (strip input) = true).
    { apply chars_all_decimal. intros c Hc.
      assert (Hin : In c (chars input)).
      { unfold strip in Hc. rewrite rstrip_by_is_space, lstrip_by_is_space in Hc.
        by apply chars_rstrip_by, chars_lstrip_by in Hc. }
      destruct (Hcs c Hin) as [H|H]; [done|].
      assert (Hdig : is_digit c = true).
      { apply (all_digits_chars (strip input)); [|done].
        unfold isdigit in Hd. by destruct (strip input). }
      by destruct c as [[] [] [] [] [] [] [] []]. }
    destruct (proj1 (uint_of_string_decimal _) Hall) as [d Hparse].
    exists d. split; [done|]. unfold cli_max_workers. rewrite Hd.
    assert (Hpy : py_int m input = py_int m (strip input)).
    { unfold py_int. by rewrite Hagree, (all_decimal_int_strip _ Hall). }
    rewrite Hpy. destruct (strip input) as [|c0 t0] eqn:Es; [done|].
    destruct ((0 <? m) && (m <? String.length (String c0 t0))) eqn:Elim.
    + apply andb_prop in Elim as [H1%Nat.ltb_lt H2%Nat.ltb_lt].
      by rewrite py_int_too_long.
    + rewrite (py_int_decimal m c0 t0 d Hparse); [done|].
      apply andb_false_iff in Elim as [H%Nat.ltb_ge|H%Nat.ltb_ge]; lia.
  - intros input c Hd Hin Hdec Hsp. unfold cli_max_workers. rewrite Hd.
    rewrite (py_int_bad m input c); [done| |done|..].
    + by apply chars_int_strip.
    + destruct (isdigit_chars _ _ Hd Hin) as [H|H];
        by destruct c as [[] [] [] [] [] [] [] []].
    + destruct (isdigit_chars _ _ Hd Hin) as [H|H];
        by destruct c as [[] [] [] [] [] [] [] []].
    + destruct (isdigit_chars _ _ Hd Hin) as [H|H];
        by destruct c as [[] [] [] [] [] [] [] []].
  - intros input w. unfold cli_max_workers.
    destruct (isdigit (strip input)); [|intros [= <-]; lia].
    destruct (py_int m input); [done|]. intros [= <-]. lia.
Qed.

(** The separator FS before the numeral: [strip] drops it, the test
    passes, and [int] raises. *)
Example cli_max_workers_separator :
  isdigit (strip (String (ascii_of_nat 28) "7")) = true
  ∧ cli_max_workers 4300 (String (ascii_of_nat 28) "7") = inl ValueError
  ∧ cli_max_workers 4300 (String (ascii_of_nat 160) "7 ") = inr 7%Z.
Proof. by vm_compute. Qed.

(** X14: the answer at the extension prompt.  A blank answer leaves the
    choice to the constructor; otherwise every item between commas gives one
    entry, a dot followed by the item without the white space around it and
    without its leading dots, in the letter case that was typed.  The
    entries are never none, and writing an entry at the prompt gives that
    entry again. *)
Theorem cli_file_extensions_normalised (input : string) :
  (strip input = EmptyString → cli_file_extensions input = None)
  ∧ (strip input ≠ EmptyString →
     ∃ items,
       items ≠ []
       ∧ items = split_comma EmptyString input
       ∧ cli_file_extensions input
         = Some (map (λ ext, "." +:+ lstrip_dots (strip ext)) items))
  ∧ (∀ ext,
       let e := "." +:+ lstrip_dots (strip ext) in
       Str.startswith e "." = true
       ∧ Str.startswith e ".." = false
       ∧ "." +:+ lstrip_dots (strip e) = e).
Proof.
  split; [|split].
  - unfold cli_file_extensions. by intros ->.
  - intros Hne. unfold cli_file_extensions.
    destruct (strip input) as [|c t] eqn:E; [done|].
    eexists. split; [|split; reflexivity].
    clear. generalize EmptyString.
    induction input as [|a s IH]; intros cur; [done|]. simpl.
    destruct (Ascii.eqb a ","); [done|apply IH].
  - intros ext e.
    assert (Hd : ∀ s, Str.startswith (lstrip_dots s) "." = false).
    { induction s as [|a s IH]; [done|]. simpl.
      destruct (Ascii.eqb a ".") eqn:Ea; [done|]. simpl. by rewrite Ea. }
    assert (Hdd : ∀ s, Str.startswith s "." = false → lstrip_dots s = s).
    { intros [|a s]; [done|]. simpl. by destruct (Ascii.eqb a "."). }
    split; [done|]. split.
    { unfold e. change (Str.startswith ("." +:+ lstrip_dots (strip ext)) "..")
        with (Str.startswith (lstrip_dots (strip ext)) ".").
      apply Hd. }
    unfold e. f_equal.
    assert (Hs : strip ("." +:+ lstrip_dots (strip ext))
                 = "." +:+ lstrip_dots (strip ext)).
    { unfold strip at 1.
      change (lstrip ("." +:+ lstrip_dots (Str.rstrip (lstrip ext))))
        with ("." +:+ lstrip_dots (Str.rstrip (lstrip ext))).
      apply rstrip_no_trailing_space.
      change (last_is_space
                (String "." (lstrip_dots (Str.rstrip (lstrip ext)))) = false).
      pose proof (rstrip_clean (lstrip ext)) as Hc.
      revert Hc. generalize (Str.rstrip (lstrip ext)). intros u Hu.
      assert (Hld : last_is_space (lstrip_dots u) = false).
      { induction u as [|a u IH]; [done|]. simpl.
        destruct (Ascii.eqb a "."); [|done].
        apply IH. destruct u; [done|exact Hu]. }
      destruct (lstrip_dots u); [reflexivity|exact Hld]. }
    rewrite Hs.
    change (lstrip_dots ("." +:+ lstrip_dots (strip ext)))
      with (lstrip_dots (lstrip_dots (strip ext))).
    apply Hdd, Hd.
Qed.

Lemma rstrip_lstrip_empty s :
  Str.rstrip (lstrip s) = EmptyString → Str.rstrip s = EmptyString.
Proof.
  induction s as [|c s IH]; [done|]. intros H. rewrite rstrip_cons.
  cbn [lstrip] in H. destruct (Str.is_space c) eqn:Ec.
  - by rewrite (IH H).
  - rewrite rstrip_cons in H. destruct (Str.rstrip s); [by rewrite Ec in H|done].
Qed.

Lemma strip_trailing_comma pre : strip (pre +:+ ",") ≠ EmptyString.
Proof.
  unfold strip. intros H. apply rstrip_lstrip_empty in H.
  induction pre as [|c pre IH]; [done|].
  change (Str.rstrip (String c (pre +:+ ",")) = EmptyString) in H.
  rewrite rstrip_cons in H.
  destruct (Str.rstrip (pre +:+ ",")); [by apply IH|done].
Qed.

Lemma split_comma_trailing cur pre :
  ∃ items, split_comma cur (pre +:+ ",") = items ++ [EmptyString].
Proof.
  revert cur. induction pre as [|c pre IH]; intros cur.
  - by exists [cur].
  - change (split_comma cur (String c pre +:+ ","))
      with (if Ascii.eqb c ","
            then cur :: split_comma EmptyString (pre +:+ ",")
            else split_comma (cur +:+ String c EmptyString) (pre +:+ ",")).
    destruct (Ascii.eqb c ",").
    + destruct (IH EmptyString) as [items ->]. by exists (cur :: items).
    + apply IH.
Qed.

Lemma any_search_empty_pattern re_search patterns path :
  EmptyString ∈ patterns →
  re_search EmptyString path = inr true →
  any_search re_search patterns path ≠ inr false.
Proof.
  intros Hin Hre H. apply any_search_false in H.
  rewrite Forall_forall in H. specialize (H _ Hin). congruence.
Qed.

(** X15: the answer at the exclusion prompt.  An answer that ends with a
    comma gives a last pattern that is the empty string; the empty pattern
    is found in every path, so the searcher built from such an answer
    scans no file at all: for every path the classification fails, by an
    exclusion or by the error of a pattern before the empty one. *)
Theorem trailing_comma_excludes_every_file
    (re_search : string → string → exn + bool) (fs : string → file)
    (max_str_digits : nat) (a : answers) (pre : string)
    (self : FileSearcher) (path : string) :
  ans_exclude a = pre +:+ "," →
  interactive_cli max_str_digits a = inr self →
  re_search EmptyString path = inr true →
  last (exclude_patterns self) = Some EmptyString
  ∧ searchable re_search fs self path = false
  ∧ never_scanned (trace (process_file re_search fs self path)).
Proof.
  intros Ha Hcli Hre.
  assert (Hp : ∃ items, exclude_patterns self = items ++ [EmptyString]).
  { unfold interactive_cli in Hcli.
    destruct (cli_max_workers max_str_digits (ans_threads a)); [done|].
    injection Hcli as <-. simpl. rewrite Ha. unfold cli_exclude_patterns.
    pose proof (strip_trailing_comma pre) as Hne.
    destruct (strip (pre +:+ ",")); [done|].
    destruct (split_comma_trailing EmptyString pre) as [items ->].
    rewrite map_app. change (map strip [EmptyString]) with [EmptyString].
    exists (map strip items). by destruct (map strip items). }
  destruct Hp as [items Hp].
  assert (Hs : searchable re_search fs self path = false).
  { unfold searchable, is_searchable_file, is_excluded.
    pose proof (any_search_empty_pattern re_search (exclude_patterns self)
                  path) as Hany.
    rewrite Hp in Hany |- *.
    specialize (Hany ltac:(set_solver) Hre).
    by destruct (any_search re_search (items ++ [EmptyString]) path)
      as [e|[|]]. }
  split; [by rewrite Hp, last_snoc|]. split; [done|].
  by apply process_file_not_searchable.
Qed.

Lemma trailing_comma_excludes_every_file_witness :
  searchable literal_search ex_world
    (init "findme" "." (Some ["node_modules"; EmptyString]) 7
       (Some [".txt"; ".JSON"]) true) "notes.txt" = false.
Proof.
  refine (proj1 (proj2 (trailing_comma_excludes_every_file literal_search
                          ex_world 0 ex_answers "node_modules" _ "notes.txt"
                          _ _ _))); reflexivity.
Defined.

(** X16: the answer at the case prompt counts as yes exactly when its
    first character is the letter y, small or capital; white space before
    it is not dropped. *)
Theorem cli_case_sensitive_first_letter (input : string) :
  cli_case_sensitive input = true
  ↔ ∃ rest, input = String "y" rest ∨ input = String "Y" rest.
Proof.
  unfold cli_case_sensitive. destruct input as [|a s].
  - split; [done|]. by intros [? [|]].
  - change (Str.startswith (Str.lower (String a s)) "y")
      with (Ascii.eqb (Str.lower_char a) "y" && true).
    rewrite andb_true_r. split.
    + intros H. exists s.
      destruct a as [[] [] [] [] [] [] [] []]; try discriminate H;
        first [by left | by right].
    + by intros [rest [[= -> ->]|[= -> ->]]].
Qed.

(** X17: the directory that is searched is the answer without the white
    space around it, and the current directory, ".", when nothing is left;
    it is never the empty string. *)
Theorem cli_directory_never_empty (input : string) :
  (strip input = EmptyString → cli_directory input = ".")
  ∧ (strip input ≠ EmptyString → cli_directory input = strip input)
  ∧ cli_directory input ≠ EmptyString
  ∧ strip (cli_directory input) = cli_directory input.
Proof.
  unfold cli_directory. pose proof (strip_idem input) as Hi.
  destruct (strip input) as [|c t]; [done|]. by repeat split.
Qed.

(** ** Highlighting *)

Example highlight_match_example :
  highlight_match ex_self "Findme, findme"
  = Back_RED +:+ Fore_WHITE +:+ Style_BRIGHT +:+ "Findme" +:+ Style_RESET_ALL
    +:+ ", "
    +:+ Back_RED +:+ Fore_WHITE +:+ Style_BRIGHT +:+ "findme"
    +:+ Style_RESET_ALL.
Proof. reflexivity. Qed.

Lemma matches_at_exact term s :
  matches_at false term s = Str.startswith s term.
Proof.
  revert s. induction term as [|b t IH]; intros [|a s]; try done.
  simpl. by rewrite IH.
Qed.

Lemma matches_at_lowered term s :
  matches_at true term s = Str.startswith (Str.lower s) (Str.lower term).
Proof.
  revert s. induction term as [|b t IH]; intros [|a s]; try done.
  simpl. by rewrite IH.
Qed.

Lemma term_in_occurs self x :
  term_in self x = occurs (negb (case_sensitive self)) (search_term self) x.
Proof.
  unfold term_in. destruct (case_sensitive self); cbn [negb andb orb];
    rewrite ?orb_false_r; generalize (search_term self) as t; intros t.
  - induction x as [|a x IH]; simpl; rewrite matches_at_exact; [done|].
    by rewrite IH.
  - induction x as [|a x IH].
    + simpl. by rewrite matches_at_lowered.
    + change (Str.lower (String a x))
        with (String (Str.lower_char a) (Str.lower x)).
      rewrite contains_cons, IH. simpl occurs.
      by rewrite matches_at_lowered.
Qed.

Lemma matches_at_length ic term s :
  matches_at ic term s = true → String.length term ≤ String.length s.
Proof.
  revert s. induction term as [|b t IH]; intros [|a s]; simpl; try done;
    [lia|].
  intros [_ H]%andb_prop. apply IH in H. lia.
Qed.

Lemma length_app s t :
  String.length (s +:+ t) = String.length s + String.length t.
Proof.
  induction s as [|c s IH]; [done|].
  change (S (String.length (s +:+ t)) = S (String.length s + String.length t)).
  by rewrite IH.
Qed.

Lemma chars_length s : length (chars s) = String.length s.
Proof.
  induction s as [|c s IH]; [done|].
  change (S (length (chars s)) = S (String.length s)). by rewrite IH.
Qed.

Lemma chars_app s t : chars (s +:+ t) = chars s ++ chars t.
Proof.
  induction s as [|c s IH]; [done|].
  change (c :: chars (s +:+ t) = c :: (chars s ++ chars t)). by rewrite IH.
Qed.

Lemma sub_literal_unchanged ic term before after s :
  occurs ic term s = false → sub_literal ic term before after 0 s = s.
Proof.
  induction s as [|c r IH]; simpl.
  - destruct term; [done|]. done.
  - intros [Hm Ho]%orb_false_elim. rewrite Hm. by rewrite IH.
Qed.

Lemma sub_literal_keeps ic term before after k s :
  chars s `sublist_of` chars (sub_literal ic term before after k s).
Proof.
  revert k. induction s as [|c r IH]; intros k; [apply sublist_nil_l|].
  assert (Hcopy : ∀ j,
    chars (String c r)
      `sublist_of` chars (String c (close after j
                            +:+ sub_literal ic term before after j r))).
  { intros j. change (c :: chars r `sublist_of`
                        c :: chars (close after j
                            +:+ sub_literal ic term before after j r)).
    apply sublist_skip. rewrite chars_app. apply sublist_inserts_l, IH. }
  cbn [sub_literal]. destruct k as [|k]; [|apply Hcopy].
  destruct (matches_at ic term (String c r)).
  - destruct (String.length term) as [|j].
    + rewrite !chars_app. do 2 apply sublist_inserts_l.
      change (c :: chars r `sublist_of`
                c :: chars (sub_literal ic term before after 0 r)).
      apply sublist_skip, IH.
    + rewrite chars_app. apply sublist_inserts_l, Hcopy.
  - change (c :: chars r `sublist_of`
              c :: chars (sub_literal ic term before after 0 r)).
    apply sublist_skip, IH.
Qed.

Lemma sub_literal_length ic term before after k s :
  String.length s ≤ String.length (sub_literal ic term before after k s).
Proof.
  pose proof (sublist_length _ _ (sub_literal_keeps ic term before after k s))
    as H.
  by rewrite !chars_length in H.
Qed.

Lemma sub_literal_closes ic term before after k s :
  0 < k ≤ String.length s →
  String.length s + String.length after
  ≤ String.length (sub_literal ic term before after k s).
Proof.
  revert k. induction s as [|c r IH]; intros k Hk; [simpl in Hk; lia|].
  destruct k as [|k]; [lia|]. cbn [sub_literal].
  change (S (String.length r) + String.length after
          ≤ S (String.length (close after k
                                +:+ sub_literal ic term before after k r))).
  rewrite length_app. destruct k as [|k].
  - pose proof (sub_literal_length ic term before after 0 r). simpl close. lia.
  - simpl in Hk. specialize (IH (S k) ltac:(lia)). simpl close. simpl. lia.
Qed.

Lemma sub_literal_marks ic term before after s :
  occurs ic term s = true →
  String.length s + String.length before + String.length after
  ≤ String.length (sub_literal ic term before after 0 s).
Proof.
  induction s as [|c r IH].
  - simpl. rewrite orb_false_r. destruct term; [|done].
    intros _. rewrite length_app. simpl. lia.
  - intros Ho. cbn [sub_literal].
    destruct (matches_at ic term (String c r)) eqn:Hm.
    + pose proof (matches_at_length _ _ _ Hm) as Hl.
      destruct (String.length term) as [|j].
      * rewrite !length_app.
        pose proof (sub_literal_length ic term before after 0 r).
        simpl. lia.
      * rewrite length_app.
        change (String.length (String c r) + String.length before
                  + String.length after
                ≤ String.length before
                  + S (String.length (close after j
                         +:+ sub_literal ic term before after j r))).
        rewrite length_app. simpl in Hl |- *. destruct j as [|j].
        -- pose proof (sub_literal_length ic term before after 0 r).
           simpl close. lia.
        -- pose proof (sub_literal_closes ic term before after (S j) r
                         ltac:(lia)).
           simpl close. simpl. lia.
    + simpl in Ho. rewrite Hm in Ho. simpl in Ho. specialize (IH Ho).
      simpl. lia.
Qed.

(** X18: [highlight_match] keeps the text: the characters of the line are
    in the result, in their order.  A line in which the test of the search
    finds the term gets at least one pair of colour codes, 18 characters; a
    line in which it does not is returned as it is. *)
Theorem highlight_match_keeps_text (self : FileSearcher) (line : string) :
  chars line `sublist_of` chars (highlight_match self line)
  ∧ (term_in self line = false → highlight_match self line = line)
  ∧ (term_in self line = true →
     String.length line + 18 ≤ String.length (highlight_match self line)).
Proof.
  unfold highlight_match. rewrite term_in_occurs.
  split; [apply sub_literal_keeps|]. split.
  - apply sub_literal_unchanged.
  - intros H. apply sub_literal_marks with (before := Back_RED +:+ Fore_WHITE +:+ Style_BRIGHT) (after := Style_RESET_ALL) in H.
    simpl in H. lia.
Qed.

(** ** What is shown of a match *)

Lemma occurs_of_matches ic t x :
  matches_at ic t x = true → occurs ic t x = true.
Proof. intros H. destruct x; simpl; by rewrite H. Qed.

Lemma occurs_cons ic t a x :
  occurs ic t (String a x) = matches_at ic t (String a x) || occurs ic t x.
Proof. reflexivity. Qed.

Lemma occurs_append ic t pre s :
  occurs ic t s = true → occurs ic t (pre +:+ s) = true.
Proof.
  intros H. induction pre as [|c pre IH]; [done|].
  change (String c pre +:+ s) with (String c (pre +:+ s)).
  rewrite occurs_cons, IH. apply orb_true_r.
Qed.

Lemma contains_term_in self x :
  Str.contains (search_term self) x = true → term_in self x = true.
Proof.
  intros H. unfold term_in. destruct (case_sensitive self); simpl.
  - by rewrite H.
  - by apply contains_lower.
Qed.

Lemma term_in_append self pre s :
  term_in self s = true → term_in self (pre +:+ s) = true.
Proof. rewrite !term_in_occurs. apply occurs_append. Qed.

Lemma search_value_shown self fp cp v r :
  r ∈ search_value self fp cp v → term_in self (line r) = true.
Proof.
  unfold search_value. intros H.
  assert (Hrec : ∀ text, term_in self text = true →
                         r ∈ [json_match fp cp text] →
                         term_in self (line r) = true).
  { intros text Ht ->%list_elem_of_singleton. simpl.
    by do 2 apply term_in_append. }
  destruct v; simpl in H;
    repeat match type of H with
           | context [if ?b then _ else _] => destruct b eqn:?
           end;
    first [ by apply not_elem_of_nil in H
          | eapply Hrec; [|exact H]; first [done | by apply contains_term_in] ].
Qed.

Lemma search_json_shown self fp data :
  ∀ path r, r ∈ search_json self data fp path → term_in self (line r) = true.
Proof.
  induction data as [|b|z|repr|s|l IH|kvs IH] using json_nested_ind;
    intros path r Hr; try (by apply not_elem_of_nil in Hr).
  - rewrite search_json_arr in Hr. generalize dependent 0.
    induction IH as [|item rest Hitem _ IHrest]; intros i Hr.
    + by apply not_elem_of_nil in Hr.
    + cbn [search_elems] in Hr. apply elem_of_app in Hr as [Hr|Hr].
      * destruct item; try (by eapply search_value_shown);
          eapply Hitem, Hr.
      * by eapply IHrest.
  - induction IH as [|[k v] rest Hv _ IHrest].
    + by apply not_elem_of_nil in Hr.
    + change (r ∈ (if term_in self k
                   then [json_match fp (path +:+ "." +:+ k) k] else [])
                  ++ (match v with
                      | JObj _ | JArr _ =>
                          search_json self v fp (path +:+ "." +:+ k)
                      | _ => search_value self fp (path +:+ "." +:+ k) v
                      end)
                  ++ search_json self (JObj rest) fp path) in Hr.
      apply elem_of_app in Hr as [Hr|Hr]; [|apply elem_of_app in Hr as [Hr|Hr]].
      * destruct (term_in self k) eqn:Hk; [|by apply not_elem_of_nil in Hr].
        apply list_elem_of_singleton in Hr as ->. simpl.
        by do 2 apply term_in_append.
      * simpl in Hv.
        destruct v; try (by eapply search_value_shown);
          eapply Hv, Hr.
      * by apply IHrest.
Qed.

Lemma same_char_space ic a b :
  same_char ic a b = true → Str.is_space a = Str.is_space b.
Proof.
  destruct ic; simpl; intros H%Ascii.eqb_eq; [|by subst].
  assert (Hl : ∀ c, Str.is_space (Str.lower_char c) = Str.is_space c)
    by (by intros [[] [] [] [] [] [] [] []]).
  by rewrite <- (Hl a), H, Hl.
Qed.

Lemma matches_at_rstrip ic t s :
  last_is_space t = false →
  matches_at ic t s = true → matches_at ic t (Str.rstrip s) = true.
Proof.
  revert s. induction t as [|b t IH]; intros s Ht; [done|].
  destruct s as [|a s]; [done|].
  cbn [matches_at]. intros [Hab Hm]%andb_prop. rewrite rstrip_cons.
  destruct t as [|b' t'].
  - simpl in Ht. rewrite (same_char_space _ _ _ Hab), Ht.
    destruct (Str.rstrip s); simpl; by rewrite Hab.
  - specialize (IH s Ht Hm).
    destruct (Str.rstrip s) as [|c r]; [done|].
    cbn [matches_at] in IH |- *. by rewrite Hab, IH.
Qed.

Lemma occurs_rstrip ic t s :
  last_is_space t = false →
  occurs ic t s = true → occurs ic t (Str.rstrip s) = true.
Proof.
  intros Ht. induction s as [|a s IH]; [done|].
  rewrite occurs_cons. intros [H|H]%orb_prop.
  - apply occurs_of_matches. by apply matches_at_rstrip.
  - specialize (IH H). rewrite rstrip_cons.
    destruct (Str.rstrip s) as [|c r].
    + simpl in IH. rewrite orb_false_r in IH.
      destruct t; [|done]. by destruct (Str.is_space a).
    + rewrite occurs_cons, IH. apply orb_true_r.
Qed.

Lemma line_records_shown self path n lines r :
  last_is_space (search_term self) = false →
  r ∈ line_records self path n lines → term_in self (line r) = true.
Proof.
  intros Ht. revert n. induction lines as [|l ls IH]; intros n Hr.
  - by apply not_elem_of_nil in Hr.
  - rewrite line_records_cons in Hr. apply elem_of_app in Hr as [Hr|Hr];
      [|by eapply IH].
    destruct (term_in self l) eqn:Hl; [|by apply not_elem_of_nil in Hr].
    apply list_elem_of_singleton in Hr as ->. simpl.
    rewrite term_in_occurs in Hl |- *. by apply occurs_rstrip.
Qed.

(** X19: what [print_results] shows of the matches [search_file] returns,
    for text of code points below 256.  When the term does not end in white
    space, the text of every record, of the line scan and of the structured
    pass alike, still holds the term under the rule of the search, and
    [highlight_match] puts at least one pair of colour codes into it. *)
Theorem every_match_is_highlighted
    (fs : string → file) (self : FileSearcher) (path : string)
    (r : match_record) :
  last_is_space (search_term self) = false →
  r ∈ found fs self path →
  term_in self (line r) = true
  ∧ String.length (line r) + 18
    ≤ String.length (highlight_match self (line r)).
Proof.
  intros Ht Hr.
  assert (H : term_in self (line r) = true).
  { rewrite found_spec in Hr. destruct (text (fs path)) as [e|f];
      [by apply not_elem_of_nil in Hr|].
    apply elem_of_app in Hr as [Hr|Hr]; [by eapply line_records_shown|].
    destruct (stream_fault f); [by apply not_elem_of_nil in Hr|].
    unfold structured_pass in Hr.
    destruct (Str.endswith (Str.lower path) ".json");
      [|by apply not_elem_of_nil in Hr].
    destruct (parsed (fs path)); try (by apply not_elem_of_nil in Hr).
    by eapply search_json_shown. }
  split; [done|].
  unfold highlight_match. rewrite term_in_occurs in H.
  apply sub_literal_marks
    with (before := Back_RED +:+ Fore_WHITE +:+ Style_BRIGHT)
         (after := Style_RESET_ALL) in H.
  simpl in H. lia.
Qed.

Lemma every_match_is_highlighted_witness :
  String.length "findme" + 18
  ≤ String.length (highlight_match ex_self "findme").
Proof.
  refine (proj2 (every_match_is_highlighted ex_world ex_self "notes.txt"
                   {| line_num := 2; line := "findme";
                      file_path := "notes.txt"; json_path := None |} _ _)).
  - reflexivity.
  - vm_compute. by repeat constructor.
Defined.

(** A term that ends in white space can match a line whose record no
    longer holds it: the record is shown without any colour code. *)
Example match_shown_plain :
  let self := init "findme " "." None 1 None false in
  ∃ r, r ∈ found ex_world self "notes.txt"
       ∧ highlight_match self (line r) = line r.
Proof.
  eexists {| line_num := 2; line := "findme";
             file_path := "notes.txt"; json_path := None |}.
  split; [vm_compute; by repeat constructor|reflexivity].
Qed.
